(** * useLocalStorage: a React hook that mirrors one localStorage key

    A shallow embedding of [src/useLocalStorage.ts] together with the parts of
    the JavaScript platform the hook calls into (strings, numbers,
    [JSON.parse], [JSON.stringify], the [Storage] interface), followed by the
    properties of the hook that the specification states. *)

From Stdlib Require Import ZArith List Bool Lia String Ascii.
From Stdlib Require Import Floats.SpecFloat.
From stdpp Require Import gmap list.

Local Open Scope Z_scope.

(** ** JavaScript strings

    A JavaScript string is a sequence of 16-bit code units.  The texts kept
    in localStorage and the keys of objects are such strings. *)

Abbreviation code_unit := Z (only parsing).
Abbreviation JsString := (list Z) (only parsing).

Definition is_code_unit (c : code_unit) : bool := (0 <=? c) && (c <? 65536).

(** String literals of the source, written in ASCII. *)
Definition js (s : string) : JsString :=
  map (fun a => Z.of_N (N_of_ascii a)) (list_ascii_of_string s).

(** Texts that contain double quotes are written with single quotes in
    their place. *)
Definition json (s : string) : JsString :=
  map (fun c => if c =? 39 then 34 else c) (js s).

Fixpoint JsString_eqb (s1 s2 : JsString) : bool :=
  match s1, s2 with
  | [], [] => true
  | c1 :: r1, c2 :: r2 => (c1 =? c2) && JsString_eqb r1 r2
  | _, _ => false
  end.

(** [span p s] splits [s] after its longest prefix whose units satisfy [p]. *)
Fixpoint span (p : code_unit -> bool) (s : JsString) : JsString * JsString :=
  match s with
  | c :: r => if p c then let '(a, b) := span p r in (c :: a, b) else ([], s)
  | [] => ([], [])
  end.

(** [strip_prefix p s] is the rest of [s] after the literal [p], if [s]
    starts with it. *)
Fixpoint strip_prefix (p s : JsString) : option JsString :=
  match p, s with
  | [], _ => Some s
  | a :: p', b :: s' => if a =? b then strip_prefix p' s' else None
  | _ :: _, [] => None
  end.

(** [starts_with c s] is the rest of [s] after the code unit [c], if [s]
    starts with it. *)
Definition starts_with (c : code_unit) (s : JsString) : option JsString :=
  match s with
  | x :: r => if x =? c then Some r else None
  | [] => None
  end.

(** ** JavaScript numbers

    The Number type is IEEE 754 binary64; [spec_float] is the Standard
    Library's specification of its values (one NaN, two zeros, two
    infinities, finite values [m * 2^e]). *)

Abbreviation Number := spec_float (only parsing).
Definition prec : Z := 53.
Definition emax : Z := 1024.

(** [x === y] on numbers: NaN differs from everything, the two zeros are
    equal. *)
Definition Number_strict_equals (x y : Number) : bool := SFeqb x y.

Definition Number_isFinite (x : Number) : bool :=
  match x with
  | S754_zero _ | S754_finite _ _ _ => true
  | S754_infinity _ | S754_nan => false
  end.

Definition Number_isNaN (x : Number) : bool :=
  match x with S754_nan => true | _ => false end.

(** The Number value of an integer literal of the source. *)
Definition Number_of_Z (z : Z) : Number := binary_normalize prec emax z 0 false.


(** The Number value of the positive decimal [s * 10^t]: round to nearest,
    ties to even. *)
Definition round_decimal (s : positive) (t : Z) : Number :=
  match t with
  | Zneg p =>
      SFdiv prec emax (S754_finite false s 0)
        (S754_finite false (10 ^ p)%positive 0)
  | Z0 => binary_round prec emax false s 0
  | Zpos p => binary_round prec emax false (s * 10 ^ p)%positive 0
  end.

(** *** Decimal digits *)

Definition is_digit (c : code_unit) : bool := (48 <=? c) && (c <=? 57).

Fixpoint to_digits (fuel : nat) (n : Z) (acc : JsString) : JsString :=
  match fuel with
  | O => acc
  | S f =>
      let acc' := (48 + n mod 10) :: acc in
      if n <? 10 then acc' else to_digits f (n / 10) acc'
  end.

(** The decimal numeral of a natural number, most significant digit first. *)
Definition decimal (n : Z) : JsString :=
  to_digits (S (Z.to_nat (Z.log2 n))) n [].

Definition digits_value (ds : JsString) : Z :=
  fold_left (fun acc d => acc * 10 + (d - 48)) ds 0.

(** *** Number::toString (radix 10)

    For a positive finite [x = m * 2^e] the standard asks for integers
    [n], [k], [s] with [10^(k-1) <= s < 10^k], such that [s * 10^(n-k)]
    rounds to [x] and [k] is as small as possible; among several [s] the one
    closest to [x].  [x] is kept as the fraction [num / den]. *)

Definition ratio (m : positive) (e : Z) : Z * Z :=
  match e with
  | Zneg p => (Zpos m, 2 ^ Zpos p)
  | _ => (Zpos m * 2 ^ e, 1)
  end.

(** [num / den * 10^j] as a fraction. *)
Definition scale10 (nd : Z * Z) (j : Z) : Z * Z :=
  let '(num, den) := nd in
  match j with
  | Zneg p => (num, den * 10 ^ Zpos p)
  | _ => (num * 10 ^ j, den)
  end.

(** The [n] with [10^(n-1) <= num/den < 10^n]. *)
Definition decimal_exponent (nd : Z * Z) : Z :=
  let n0 := Z.of_nat (length (decimal (fst nd))) - Z.of_nat (length (decimal (snd nd))) in
  let '(a, b) := scale10 nd (- n0) in
  if a <? b then n0 else n0 + 1.

Definition rounds_to (s t : Z) (x : Number) : bool :=
  match s with
  | Zpos p => SFeqb (round_decimal p t) x
  | _ => false
  end.

(** The [k]-digit decimals next to [x], below and above, and which of them
    is nearer ([true]: the upper one; a tie goes to the even one). *)
Definition neighbours (nd : Z * Z) (n k : Z) : Z * Z * bool :=
  let '(a, b) := scale10 nd (k - n) in
  let lo := a / b in
  let upper := match 2 * (a mod b) ?= b with
               | Lt => false
               | Gt => true
               | Eq => Z.odd lo
               end in
  (lo, lo + 1, upper).

(** [s = 10^k] has one digit too many: it is [10^(k-1)] one decade up. *)
Definition renormalize (s n k : Z) : Z * Z :=
  if s =? 10 ^ k then (10 ^ (k - 1), n + 1) else (s, n).

(** A [k]-digit [s], with its exponent, that rounds to [x], if there is
    one. *)
Definition digits_at (x : Number) (nd : Z * Z) (n k : Z) : option (Z * Z) :=
  let '(lo, hi, upper) := neighbours nd n k in
  let below := renormalize lo n k in
  let above := renormalize hi n k in
  match rounds_to (fst below) (snd below - k) x,
        rounds_to (fst above) (snd above - k) x with
  | true, true => Some (if upper then above else below)
  | true, false => Some below
  | false, true => Some above
  | false, false => None
  end.

(** Try [k], [k+1], ...; seventeen digits always identify a binary64 value,
    so the search stops there with the nearest decimal. *)
Fixpoint shortest_from (fuel : nat) (x : Number) (nd : Z * Z) (n k : Z)
  : Z * Z * Z :=
  match fuel with
  | O =>
      let '(lo, hi, upper) := neighbours nd n k in
      let '(s, n') := renormalize (if upper then hi else lo) n k in
      (s, n', k)
  | S f =>
      match digits_at x nd n k with
      | Some (s, n') => (s, n', k)
      | None => shortest_from f x nd n (k + 1)
      end
  end.

Definition shortest_decimal (m : positive) (e : Z) : Z * Z * Z :=
  let nd := ratio m e in
  shortest_from 16 (S754_finite false m e) nd (decimal_exponent nd) 1.

Definition zeros (n : Z) : JsString := repeat 48 (Z.to_nat n).

Definition exponent_part (n : Z) : JsString :=
  let e := n - 1 in
  101 :: (if e <? 0 then 45 else 43) :: decimal (Z.abs e).

(** Steps 6 to 10 of Number::toString: how the digits [ds] of [s] and the
    exponent [n] are laid out. *)
Definition layout (ds : JsString) (n k : Z) : JsString :=
  if (k <=? n) && (n <=? 21) then ds ++ zeros (n - k)
  else if (0 <? n) && (n <=? 21) then
    take (Z.to_nat n) ds ++ 46 :: drop (Z.to_nat n) ds
  else if (-6 <? n) && (n <=? 0) then
    48 :: 46 :: zeros (- n) ++ ds
  else
    match ds with
    | d :: [] => d :: exponent_part n
    | d :: more => d :: 46 :: more ++ exponent_part n
    | [] => []
    end.

Definition Number_toString (x : Number) : JsString :=
  match x with
  | S754_nan => js "NaN"
  | S754_zero _ => js "0"
  | S754_infinity s => (if s then [45] else []) ++ js "Infinity"
  | S754_finite s m e =>
      let '(d, n, k) := shortest_decimal m e in
      (if s then [45] else []) ++ layout (decimal d) n k
  end.

(** *** Numbers in JSON text

    An optional minus sign; an integer part, either the digit 0 alone or a
    nonzero digit followed by digits; an optional fraction, a dot and at
    least one digit; an optional exponent, e or E, an optional sign and at
    least one digit. *)

Definition nonempty (s : JsString) : bool :=
  match s with [] => false | _ => true end.

Definition parse_exponent (r : JsString) : option Z :=
  match r with
  | [] => Some 0
  | c :: r1 =>
      if (c =? 101) || (c =? 69) then
        let '(neg, r2) :=
          match starts_with 45 r1, starts_with 43 r1 with
          | Some r2, _ => (true, r2)
          | None, Some r2 => (false, r2)
          | None, None => (false, r1)
          end in
        let '(ds, r3) := span is_digit r2 in
        if nonempty ds && negb (nonempty r3)
        then Some (if neg then - digits_value ds else digits_value ds)
        else None
      else None
  end.

Definition parse_fraction (r : JsString) : option (JsString * JsString) :=
  match starts_with 46 r with
  | Some r1 =>
      let '(ds, r2) := span is_digit r1 in
      if nonempty ds then Some (ds, r2) else None
  | None => Some ([], r)
  end.

(** The Number value of a JSON number token without its sign. *)
Definition parse_unsigned (r : JsString) : option Number :=
  let '(ip, r1) := span is_digit r in
  match ip with
  | [] => None
  | d :: ds =>
      if (d =? 48) && nonempty ds then None
      else
        match parse_fraction r1 with
        | None => None
        | Some (fp, r2) =>
            match parse_exponent r2 with
            | None => None
            | Some ex =>
                Some match digits_value (ip ++ fp) with
                     | Zpos s => round_decimal s (ex - Z.of_nat (length fp))
                     | _ => S754_zero false
                     end
            end
        end
  end.

(** The Number value of a whole JSON number token. *)
Definition parse_number_token (tok : JsString) : option Number :=
  match starts_with 45 tok with
  | Some r => option_map SFopp (parse_unsigned r)
  | None => parse_unsigned tok
  end.

(** The code units a JSON number token is made of: digits, [+], [-], [.],
    [e], [E]. *)
Definition is_number_char (c : code_unit) : bool :=
  is_digit c || (c =? 43) || (c =? 45) || (c =? 46) || (c =? 101) || (c =? 69).

(** ** JSON values

    [JsonValue] of the source: string, number, boolean, null, array, object.
    Arrays and objects are heap objects, and [===] compares them by
    identity; each carries the reference [r] of the object it is.  The
    members of an object are kept in property order, with unique keys. *)

Abbreviation ref := nat (only parsing).

Local Unset Elimination Schemes.
Inductive JsonValue : Type :=
| JNull
| JBoolean (b : bool)
| JNumber (x : Number)
| JString (s : JsString)
| JArray (r : ref) (elements : list JsonValue)
| JObject (r : ref) (members : list (JsString * JsonValue)).
Local Set Elimination Schemes.
Arguments JArray r%_nat elements.
Arguments JObject r%_nat members.

Abbreviation JsonObject := (list (list Z * JsonValue)) (only parsing).

(** [v1 === v2] *)
Definition strict_equals (v1 v2 : JsonValue) : bool :=
  match v1, v2 with
  | JNull, JNull => true
  | JBoolean a, JBoolean b => Bool.eqb a b
  | JNumber x, JNumber y => Number_strict_equals x y
  | JString s, JString t => JsString_eqb s t
  | JArray r1 _, JArray r2 _ => Nat.eqb r1 r2
  | JObject r1 _, JObject r2 _ => Nat.eqb r1 r2
  | _, _ => false
  end.

(** [typeof v === "object"]: true of null, arrays and objects. *)
Definition typeof_object (v : JsonValue) : bool :=
  match v with
  | JNull | JArray _ _ | JObject _ _ => true
  | JBoolean _ | JNumber _ | JString _ => false
  end.

Definition is_null (v : JsonValue) : bool :=
  match v with JNull => true | _ => false end.

(** The own property [key] of an object. *)
Fixpoint get_own (o : JsonObject) (key : JsString) : option JsonValue :=
  match o with
  | [] => None
  | (k, v) :: rest => if JsString_eqb k key then Some v else get_own rest key
  end.

(** [deepEqual(v, Object.prototype)], traced through the source: the two are
    different objects, [Object.prototype] is a non-null, non-array object
    with no enumerable key, so the answer is [true] exactly for an object
    [v] without members. *)
Definition deepEqual_Object_prototype (v : JsonValue) : bool :=
  match v with
  | JObject _ [] => true
  | _ => false
  end.

(** [array.every((el, i) => callback(el, i))] *)
Section Every.
Context {A : Type} (callback : A -> nat -> bool).

Fixpoint every_from (els : list A) (i : nat) : bool :=
  match els with
  | [] => true
  | el :: more => callback el i && every_from more (S i)
  end.

Definition Array_every (array : list A) : bool := every_from array O.
End Every.

(** [deepEqual] of the source.

    [v2[i]] is only read below [v1.length = v2.length]; past the end it
    would be [undefined], which is deep-equal to no JSON value.

    The loop [for (const key in o1)] goes through the members of [o1] and
    ends with [false] at the first one that fails: [forallb].  [o1[key]] is
    the member the loop is at.  [o2[key]] reads through the prototype chain:
    when [o2] has no own property [key] the read gives [undefined], or, for
    the names [Object.prototype] defines, a function (not deep-equal to any
    JSON value: its [typeof] is not ["object"]) or, for [__proto__],
    [Object.prototype] itself. *)
Fixpoint deepEqual (v1 v2 : JsonValue) : bool :=
  if strict_equals v1 v2 then true
  else if negb (typeof_object v1) || negb (typeof_object v2) then false
  else if is_null v1 || is_null v2 then false
  else
    match v1 with
    | JArray _ a1 =>
        match v2 with
        | JArray _ a2 =>
            if negb (Nat.eqb (length a1) (length a2)) then false
            else
              Array_every
                (fun el i =>
                   match nth_error a2 i with
                   | Some el2 => deepEqual el el2
                   | None => false
                   end) a1
        | _ => false
        end
    | JObject _ o1 =>
        match v2 with
        | JObject _ o2 =>
            if negb (Nat.eqb (length o1) (length o2)) then false
            else
              forallb
                (fun member =>
                   let '(key, objValue1) := member in
                   match get_own o2 key with
                   | Some objValue2 => deepEqual objValue1 objValue2
                   | None =>
                       JsString_eqb key (js "__proto__")
                       && deepEqual_Object_prototype objValue1
                   end) o1
        | _ => false
        end
    | _ => false
    end.

(** ** JSON.stringify *)

Definition hex_digit (d : Z) : code_unit := if d <? 10 then 48 + d else 87 + d.

(** [\uXXXX] with lowercase hexadecimal digits. *)
Definition unicode_escape (c : code_unit) : JsString :=
  [92; 117; hex_digit (c / 4096); hex_digit (c / 256 mod 16);
   hex_digit (c / 16 mod 16); hex_digit (c mod 16)].

Definition is_leading_surrogate (c : code_unit) : bool :=
  (55296 <=? c) && (c <=? 56319).
Definition is_trailing_surrogate (c : code_unit) : bool :=
  (56320 <=? c) && (c <=? 57343).

(** One code unit that is not half of a surrogate pair. *)
Definition quote_unit (c : code_unit) : JsString :=
  if c =? 8 then [92; 98]
  else if c =? 9 then [92; 116]
  else if c =? 10 then [92; 110]
  else if c =? 12 then [92; 102]
  else if c =? 13 then [92; 114]
  else if c =? 34 then [92; 34]
  else if c =? 92 then [92; 92]
  else if (c <? 32) || is_leading_surrogate c || is_trailing_surrogate c
  then unicode_escape c
  else [c].

Fixpoint quote_units (s : JsString) : JsString :=
  match s with
  | [] => []
  | c :: rest =>
      if is_leading_surrogate c then
        match rest with
        | d :: rest' =>
            if is_trailing_surrogate d then c :: d :: quote_units rest'
            else quote_unit c ++ quote_units rest
        | [] => quote_unit c
        end
      else quote_unit c ++ quote_units rest
  end.

Definition QuoteJSONString (s : JsString) : JsString :=
  34 :: quote_units s ++ [34].

(** The items of an array or object, separated by commas, and the closing
    bracket. *)
Section Join.
Context {A : Type} (item : A -> JsString) (close : code_unit).

Fixpoint join_items (l : list A) : JsString :=
  match l with
  | [] => [close]
  | x :: more =>
      item x ++ match more with
                | [] => [close]
                | _ :: _ => 44 :: join_items more
                end
  end.
End Join.

Fixpoint SerializeJSONProperty (v : JsonValue) : JsString :=
  match v with
  | JNull => js "null"
  | JBoolean true => js "true"
  | JBoolean false => js "false"
  | JNumber x => if Number_isFinite x then Number_toString x else js "null"
  | JString s => QuoteJSONString s
  | JArray _ els => 91 :: join_items SerializeJSONProperty 93 els
  | JObject _ ms =>
      123 :: join_items
               (fun member =>
                  let '(key, val) := member in
                  QuoteJSONString key ++ 58 :: SerializeJSONProperty val)
               125 ms
  end.

(** A member of an object in JSON text: the key, a colon, the value. *)
Definition member_text (member : JsString * JsonValue) : JsString :=
  let '(key, val) := member in
  QuoteJSONString key ++ 58 :: SerializeJSONProperty val.

(** ** JSON.parse *)

Definition is_ws (c : code_unit) : bool :=
  (c =? 32) || (c =? 9) || (c =? 10) || (c =? 13).

Fixpoint skip_ws (s : JsString) : JsString :=
  match s with
  | c :: r => if is_ws c then skip_ws r else s
  | [] => []
  end.

Definition hex_value (c : code_unit) : option Z :=
  if is_digit c then Some (c - 48)
  else if (97 <=? c) && (c <=? 102) then Some (c - 87)
  else if (65 <=? c) && (c <=? 70) then Some (c - 55)
  else None.

Definition hex4_value (a b c d : code_unit) : option code_unit :=
  match hex_value a, hex_value b, hex_value c, hex_value d with
  | Some x, Some y, Some z, Some w => Some (((x * 16 + y) * 16 + z) * 16 + w)
  | _, _, _, _ => None
  end.

(** The code unit a one-letter escape stands for. *)
Definition simple_escape (e : code_unit) : option code_unit :=
  if e =? 34 then Some 34
  else if e =? 92 then Some 92
  else if e =? 47 then Some 47
  else if e =? 98 then Some 8
  else if e =? 102 then Some 12
  else if e =? 110 then Some 10
  else if e =? 114 then Some 13
  else if e =? 116 then Some 9
  else None.

(** The rest of a string literal after its opening quote: the string it
    denotes and the text after the closing quote. *)
Fixpoint parse_string_units (s : JsString) : option (JsString * JsString) :=
  match s with
  | [] => None
  | c :: r =>
      if c =? 34 then Some ([], r)
      else if c =? 92 then
        match r with
        | [] => None
        | e :: r1 =>
            if e =? 117 then
              match r1 with
              | h1 :: h2 :: h3 :: h4 :: r2 =>
                  match hex4_value h1 h2 h3 h4 with
                  | Some u =>
                      match parse_string_units r2 with
                      | Some (str, rest) => Some (u :: str, rest)
                      | None => None
                      end
                  | None => None
                  end
              | _ => None
              end
            else
              match simple_escape e with
              | Some u =>
                  match parse_string_units r1 with
                  | Some (str, rest) => Some (u :: str, rest)
                  | None => None
                  end
              | None => None
              end
        end
      else if c <? 32 then None
      else
        match parse_string_units r with
        | Some (str, rest) => Some (c :: str, rest)
        | None => None
        end
  end.

(** CreateDataProperty: a key already present keeps its place and takes the
    new value, so of two members with one key in the text the last wins.
    JavaScript enumerates keys that are array indices before the others;
    the members are kept here in the order of the text, and [deepEqual],
    the only reader of a decoded object, gives the same answer for every
    order of the members. *)
Fixpoint define_property (o : JsonObject) (key : JsString) (v : JsonValue)
  : JsonObject :=
  match o with
  | [] => [(key, v)]
  | (k, w) :: rest =>
      if JsString_eqb k key then (k, v) :: rest
      else (k, w) :: define_property rest key v
  end.

Definition build_object (ms : list (JsString * JsonValue)) : JsonObject :=
  fold_left (fun o m => define_property o (fst m) (snd m)) ms [].

(** The parser proper.  [next] is the first unused object reference; every
    array and object of the result is a new object.  A number token is the
    longest run of number characters, which must be a number as a whole:
    in JSON text nothing that follows a number can start with such a
    character.  [fuel] bounds the depth of the recursion. *)
Fixpoint parse_value (fuel : nat) (s : JsString) (next : ref)
  : option (JsonValue * JsString * ref) :=
  match fuel with
  | O => None
  | S fuel =>
      match skip_ws s with
      | [] => None
      | c :: r =>
          if c =? 34 then
            match parse_string_units r with
            | Some (str, rest) => Some (JString str, rest, next)
            | None => None
            end
          else if c =? 91 then
            match starts_with 93 (skip_ws r) with
            | Some rest => Some (JArray next [], rest, S next)
            | None =>
                match parse_elements fuel r (S next) with
                | Some (els, rest, next') => Some (JArray next els, rest, next')
                | None => None
                end
            end
          else if c =? 123 then
            match starts_with 125 (skip_ws r) with
            | Some rest => Some (JObject next [], rest, S next)
            | None =>
                match parse_members fuel r (S next) with
                | Some (ms, rest, next') =>
                    Some (JObject next (build_object ms), rest, next')
                | None => None
                end
            end
          else
            match strip_prefix (js "null") (c :: r) with
            | Some rest => Some (JNull, rest, next)
            | None =>
            match strip_prefix (js "true") (c :: r) with
            | Some rest => Some (JBoolean true, rest, next)
            | None =>
            match strip_prefix (js "false") (c :: r) with
            | Some rest => Some (JBoolean false, rest, next)
            | None =>
                let '(tok, rest) := span is_number_char (c :: r) in
                match parse_number_token tok with
                | Some x => Some (JNumber x, rest, next)
                | None => None
                end
            end end end
      end
  end

with parse_elements (fuel : nat) (s : JsString) (next : ref)
  : option (list JsonValue * JsString * ref) :=
  match fuel with
  | O => None
  | S fuel =>
      match parse_value fuel s next with
      | None => None
      | Some (v, r, next1) =>
          match starts_with 44 (skip_ws r), starts_with 93 (skip_ws r) with
          | Some r1, _ =>
              match parse_elements fuel r1 next1 with
              | Some (vs, rest, next2) => Some (v :: vs, rest, next2)
              | None => None
              end
          | None, Some rest => Some ([v], rest, next1)
          | None, None => None
          end
      end
  end

with parse_members (fuel : nat) (s : JsString) (next : ref)
  : option (list (JsString * JsonValue) * JsString * ref) :=
  match fuel with
  | O => None
  | S fuel =>
      match starts_with 34 (skip_ws s) with
      | Some r =>
          match parse_string_units r with
          | None => None
          | Some (key, r1) =>
              match starts_with 58 (skip_ws r1) with
              | Some r2 =>
                  match parse_value fuel r2 next with
                  | None => None
                  | Some (v, r3, next1) =>
                      match starts_with 44 (skip_ws r3),
                            starts_with 125 (skip_ws r3) with
                      | Some r4, _ =>
                          match parse_members fuel r4 next1 with
                          | Some (ms, rest, next2) =>
                              Some ((key, v) :: ms, rest, next2)
                          | None => None
                          end
                      | None, Some rest => Some ([(key, v)], rest, next1)
                      | None, None => None
                      end
                  end
              | None => None
              end
          end
      | None => None
      end
  end.

(** ** Exceptions and effects

    A JavaScript call either returns or throws.  What the hook can touch
    from outside is kept in a [World]: the contents of the store, the errors
    handed to [onError], how often React was notified, and the next unused
    object reference. *)

Inductive Error : Type :=
| SyntaxError
| TypeError
| RangeError
| QuotaExceededError
| CustomError (code : nat).

Inductive Completion (A : Type) : Type :=
| Normal (a : A)
| Throw (e : Error).
Arguments Normal {A} a.
Arguments Throw {A} e.

Record World (St : Type) : Type := mkWorld {
  store : St;
  reported : list Error;
  notified : nat;
  next_ref : ref;
}.
Arguments mkWorld {St} store reported%_list notified%_nat next_ref%_nat.
Arguments store {St}.
Arguments reported {St}.
Arguments notified {St}.
Arguments next_ref {St}.

Definition Script (St A : Type) : Type := World St -> Completion A * World St.

Global Instance Script_ret {St} : MRet (Script St) :=
  fun A a w => (Normal a, w).

Global Instance Script_bind {St} : MBind (Script St) :=
  fun A B k m w =>
    match m w with
    | (Normal a, w') => k a w'
    | (Throw e, w') => (Throw e, w')
    end.

(** [try { body } catch (err) { handler }] *)
Definition try_catch {St A} (body : Script St A) (handler : Error -> Script St A)
  : Script St A :=
  fun w =>
    match body w with
    | (Normal a, w') => (Normal a, w')
    | (Throw e, w') => handler e w'
    end.

Definition with_store {St} (s : St) (w : World St) : World St :=
  mkWorld s (reported w) (notified w) (next_ref w).
Definition with_next_ref {St} (n : ref) (w : World St) : World St :=
  mkWorld (store w) (reported w) (notified w) n.
Definition report {St} (e : Error) (w : World St) : World St :=
  mkWorld (store w) (reported w ++ [e]) (notified w) (next_ref w).
Definition notify {St} (w : World St) : World St :=
  mkWorld (store w) (reported w) (S (notified w)) (next_ref w).

(** ** The platform: JSON and Storage

    The hook reaches both through interfaces.  The [JSON] object decodes and
    encodes and may throw in either direction; a [Storage] may throw from
    any of its methods (the hook accepts a custom implementation). *)

Record JSONObject : Type := {
  JSON_parse : JsString -> ref -> Completion (JsonValue * ref);
  JSON_stringify : JsonValue -> Completion JsString;
}.

Record Storage (St : Type) : Type := {
  storage_id : nat;
  getItem : St -> JsString -> Completion (option JsString);
  setItem : St -> JsString -> JsString -> Completion St;
  removeItem : St -> JsString -> Completion St;
}.
Arguments storage_id {St}.
Arguments getItem {St}.
Arguments setItem {St}.
Arguments removeItem {St}.

(** [JSON] as the language defines it. *)
Definition ECMAScript_parse (text : JsString) (next : ref)
  : Completion (JsonValue * ref) :=
  match parse_value (S (length text)) text next with
  | Some (v, rest, next') =>
      match skip_ws rest with
      | [] => Normal (v, next')
      | _ :: _ => Throw SyntaxError
      end
  | None => Throw SyntaxError
  end.

Definition ECMAScript_JSON : JSONObject := {|
  JSON_parse := ECMAScript_parse;
  JSON_stringify := fun v => Normal (SerializeJSONProperty v);
|}.

(** The nesting depth of a value, and an engine whose [JSON.stringify] runs
    out of stack beyond [limit] levels, as engines do on deep values. *)
Fixpoint depth (v : JsonValue) : nat :=
  match v with
  | JArray _ els => S (fold_right (fun el d => Nat.max (depth el) d) O els)
  | JObject _ ms => S (fold_right (fun m d => Nat.max (depth (snd m)) d) O ms)
  | _ => O
  end.

Definition bounded_stack_JSON (limit : nat) : JSONObject := {|
  JSON_parse := ECMAScript_parse;
  JSON_stringify := fun v =>
    if Nat.leb (depth v) limit then Normal (SerializeJSONProperty v)
    else Throw RangeError;
|}.
Arguments bounded_stack_JSON limit%_nat.

(** A store that keeps everything it is given. *)
Definition memoryStorage (id : nat) : Storage (gmap JsString JsString) := {|
  storage_id := id;
  getItem := fun s k => Normal (s !! k);
  setItem := fun s k v => Normal (<[k := v]> s);
  removeItem := fun s k => Normal (delete k s);
|}.

(** A store with a quota on the code units it holds: [setItem] throws when
    the write would exceed it. *)
Definition stored_units (s : gmap JsString JsString) : nat :=
  map_fold (fun k v n => (length k + length v + n)%nat) O s.

Definition quotaStorage (id quota : nat) : Storage (gmap JsString JsString) := {|
  storage_id := id;
  getItem := fun s k => Normal (s !! k);
  setItem := fun s k v =>
    if Nat.leb (stored_units (<[k := v]> s)) quota
    then Normal (<[k := v]> s)
    else Throw QuotaExceededError;
  removeItem := fun s k => Normal (delete k s);
|}.

Arguments memoryStorage id%_nat.
Arguments quotaStorage (id quota)%_nat.

(** A custom store that refuses every change. *)
Definition readOnlyStorage (id : nat) : Storage (gmap JsString JsString) := {|
  storage_id := id;
  getItem := fun s k => Normal (s !! k);
  setItem := fun _ _ _ => Throw (CustomError 1);
  removeItem := fun _ _ => Throw (CustomError 2);
|}.

Arguments readOnlyStorage id%_nat.

(** ** The hook *)

Record UseLocalStorageOptions : Type := {
  key : JsString;
  fallbackValue : option JsonValue;   (* [None]: undefined *)
  removeNullValues : bool;            (* default [true] *)
  syncFallbackOnMount : bool;         (* default [false] *)
}.

(** [event.key], [event.oldValue] and [event.newValue] are strings or null,
    [event.storageArea] is the store the change happened in. *)
Record StorageEvent : Type := {
  storageArea : option nat;
  event_key : option JsString;
  oldValue : option JsString;
  newValue : option JsString;
}.

(** The payload of the setter: a value, or a function of the current value. *)
Inductive Payload : Type :=
| Value (v : JsonValue)
| Updater (f : JsonValue -> Completion JsonValue).

Definition option_JsString_eqb (a b : option JsString) : bool :=
  match a, b with
  | None, None => true
  | Some x, Some y => JsString_eqb x y
  | _, _ => false
  end.

Section Hook.
Context {St : Type}.
Variable JSON : JSONObject.
Variable localStorage : Storage St.
Variable options : UseLocalStorageOptions.

(** [onError], through [useEffectEvent]: the error goes to the sink. *)
Definition stableOnError (err : Error) : Script St unit :=
  fun w => (Normal tt, report err w).

Definition notifyReact : Script St unit :=
  fun w => (Normal tt, notify w).

Definition parse (text : JsString) : Script St JsonValue :=
  fun w =>
    match JSON_parse JSON text (next_ref w) with
    | Normal (v, next') => (Normal v, with_next_ref next' w)
    | Throw e => (Throw e, w)
    end.

Definition stringify (v : JsonValue) : Script St JsString :=
  fun w =>
    match JSON_stringify JSON v with
    | Normal text => (Normal text, w)
    | Throw e => (Throw e, w)
    end.

Definition localStorage_getItem (k : JsString) : Script St (option JsString) :=
  fun w =>
    match getItem localStorage (store w) k with
    | Normal r => (Normal r, w)
    | Throw e => (Throw e, w)
    end.

Definition localStorage_setItem (k text : JsString) : Script St unit :=
  fun w =>
    match setItem localStorage (store w) k text with
    | Normal s' => (Normal tt, with_store s' w)
    | Throw e => (Throw e, w)
    end.

Definition localStorage_removeItem (k : JsString) : Script St unit :=
  fun w =>
    match removeItem localStorage (store w) k with
    | Normal s' => (Normal tt, with_store s' w)
    | Throw e => (Throw e, w)
    end.

(** The listener [subscribeToLocalStorage] registers for "storage"
    events. *)
Definition onStorageUpdate (event : StorageEvent) : Script St unit :=
  let canIgnore :=
    negb (match storageArea event with
          | Some a => Nat.eqb a (storage_id localStorage)
          | None => false
          end)
    || negb (option_JsString_eqb (event_key event) (Some (key options))) in
  if canIgnore then mret tt
  else
    match oldValue event, newValue event with
    | Some old, Some new =>
        try_catch
          (oldParsed ← parse old;
           newParsed ← parse new;
           if negb (deepEqual oldParsed newParsed) then notifyReact
           else mret tt)
          (fun err => stableOnError err)
    | old, new =>
        if negb (option_JsString_eqb old new) then notifyReact else mret tt
    end.

Definition readFromLocalStorage : Script St JsonValue :=
  payload ← localStorage_getItem (key options);
  match payload with
  | None => mret JNull
  | Some payload =>
      try_catch
        (parsed ← parse payload; mret parsed)
        (fun err => stableOnError err;; mret JNull)
  end.

Definition hookValue (storageValue : JsonValue) : JsonValue :=
  match fallbackValue options with
  | Some fallback => if is_null storageValue then fallback else storageValue
  | None => storageValue
  end.

(** The value the setter is to store: the payload itself, or what the
    payload, a function, makes of the value the hook last returned.  The
    call may throw. *)
Definition newValue_of (current : JsonValue) (payload : Payload)
  : Completion JsonValue :=
  match payload with
  | Updater f => f current
  | Value v => Normal v
  end.

(** The setter of the render whose value was [current]: [hookValue] in
    the closure of [setLocalStorageValue]. *)
Definition setLocalStorageValue (current : JsonValue) (payload : Payload)
  : Script St unit :=
  match newValue_of current payload with
  | Throw err => stableOnError err
  | Normal newValue =>
      if is_null newValue && removeNullValues options then
        localStorage_removeItem (key options)
      else
        try_catch
          (string ← stringify newValue;
           localStorage_setItem (key options) string)
          (fun err => stableOnError err)
  end.

(** The effect with the empty dependency list: it sees the
    [storageValue] of the first render. *)
Definition mountEffect (storageValue : JsonValue) : Script St unit :=
  let canSyncOnMount :=
    syncFallbackOnMount options && is_null storageValue
    && match fallbackValue options with Some _ => true | None => false end in
  if negb canSyncOnMount then mret tt
  else
    match fallbackValue options with
    | Some fallback =>
        string ← stringify fallback;
        localStorage_setItem (key options) string
    | None => mret tt
    end.

(** One evaluation of the hook's body: read the snapshot, compute the
    value, build the setter. *)
Definition useLocalStorage : Script St (JsonValue * (Payload -> Script St unit)) :=
  storageValue ← readFromLocalStorage;
  mret (hookValue storageValue, setLocalStorageValue (hookValue storageValue)).

(** The first evaluation, followed by the mount effect. *)
Definition mount : Script St (JsonValue * (Payload -> Script St unit)) :=
  storageValue ← readFromLocalStorage;
  mountEffect storageValue;;
  mret (hookValue storageValue, setLocalStorageValue (hookValue storageValue)).
End Hook.

(** The value in the pair an evaluation of the hook returns, when it
    returns. *)
Definition returned_value {St : Type}
  (r : Completion (JsonValue * (Payload -> Script St unit)) * World St)
  : option JsonValue :=
  match fst r with
  | Normal (value, _) => Some value
  | Throw _ => None
  end.


(** ** Vocabulary of the statements *)

Section Forallb2.
Context {A B : Type} (f : A -> B -> bool).

Fixpoint forallb2 (l1 : list A) (l2 : list B) : bool :=
  match l1, l2 with
  | [], [] => true
  | a :: l1', b :: l2' => f a b && forallb2 l1' l2'
  | _, _ => false
  end.
End Forallb2.


(** Two values of the same shape: the same kind of value at every place,
    the same strings and booleans, the same keys in the same order, and
    numbers that [same_number] relates.  The references of the objects play
    no part. *)
Section SameShape.
Variable same_number : Number -> Number -> bool.

Fixpoint same_shape (v1 v2 : JsonValue) : bool :=
  match v1, v2 with
  | JNull, JNull => true
  | JBoolean a, JBoolean b => Bool.eqb a b
  | JNumber x, JNumber y => same_number x y
  | JString s, JString t => JsString_eqb s t
  | JArray _ a1, JArray _ a2 => forallb2 same_shape a1 a2
  | JObject _ o1, JObject _ o2 =>
      forallb2 (fun m1 m2 => JsString_eqb (fst m1) (fst m2)
                             && same_shape (snd m1) (snd m2)) o1 o2
  | _, _ => false
  end.
End SameShape.


(** [similar v1 v2]: the same up to what [===] does not tell apart in
    numbers. *)
Definition similar : JsonValue -> JsonValue -> bool :=
  same_shape Number_strict_equals.



Fixpoint distinct (keys : list JsString) : bool :=
  match keys with
  | [] => true
  | k :: more => negb (existsb (JsString_eqb k) more) && distinct more
  end.

(** What every JavaScript object satisfies: no key twice. *)
Fixpoint well_formed (v : JsonValue) : bool :=
  match v with
  | JArray _ els => forallb well_formed els
  | JObject _ ms =>
      distinct (map fst ms) && forallb (fun m => well_formed (snd m)) ms
  | _ => true
  end.

Definition JsString_valid (s : JsString) : bool := forallb is_code_unit s.

(** What the standard asks of the integers [n], [k], [s] of
    Number::toString for [x = m * 2^e]: [s] has [k] digits and [s * 10^(n-k)]
    rounds to [x].  Every binary64 value has such integers with [k] at most
    seventeen; here the outcome of the search is checked. *)
Definition toString_digits_ok (m : positive) (e : Z) : bool :=
  let '(s, n, k) := shortest_decimal m e in
  rounds_to s (n - k) (S754_finite false m e)
  && (Z.of_nat (length (decimal s)) =? k).

(** A number JSON text can carry: a finite one. *)
Definition Number_representable (x : Number) : bool :=
  match x with
  | S754_zero _ => true
  | S754_finite _ m e => toString_digits_ok m e
  | S754_infinity _ | S754_nan => false
  end.

(** A representable JSON value: its strings are sequences of code units, its
    numbers are representable, its objects have no key twice. *)
Fixpoint representable (v : JsonValue) : bool :=
  match v with
  | JNull | JBoolean _ => true
  | JNumber x => Number_representable x
  | JString s => JsString_valid s
  | JArray _ els => forallb representable els
  | JObject _ ms =>
      distinct (map fst ms)
      && forallb (fun m => JsString_valid (fst m) && representable (snd m)) ms
  end.

(** How much fuel [parse_value] needs for the text of [v]. *)
Fixpoint cost (v : JsonValue) : nat :=
  match v with
  | JArray _ els => S (fold_right (fun el n => S (cost el + n)) O els)
  | JObject _ ms => S (fold_right (fun m n => S (cost (snd m) + n)) O ms)
  | _ => 1
  end.

(** [equal] of the specification's StructuralEqualityComparer, in the
    specification's words: primitives are equal when strictly equal; a
    primitive, null, an array and an object are pairwise unequal; arrays are
    unequal if their lengths differ, else compared element by element, in
    order; objects are unequal if their key counts differ, else every key of
    one must exist in the other with a deeply equal value. *)
Fixpoint structurally_equal (a b : JsonValue) : bool :=
  match a, b with
  | JNull, JNull => true
  | JBoolean x, JBoolean y => Bool.eqb x y
  | JNumber x, JNumber y => Number_strict_equals x y
  | JString s, JString t => JsString_eqb s t
  | JArray _ a1, JArray _ a2 =>
      Nat.eqb (length a1) (length a2) && forallb2 structurally_equal a1 a2
  | JObject _ o1, JObject _ o2 =>
      Nat.eqb (length o1) (length o2)
      && forallb (fun member =>
                    match get_own o2 (fst member) with
                    | Some y => structurally_equal (snd member) y
                    | None => false
                    end) o1
  | _, _ => false
  end.

(** Every object of the value has its reference in [lo, hi). *)
Fixpoint refs_in (lo hi : nat) (v : JsonValue) : bool :=
  match v with
  | JArray r els =>
      Nat.leb lo r && Nat.ltb r hi && forallb (refs_in lo hi) els
  | JObject r ms =>
      Nat.leb lo r && Nat.ltb r hi
      && forallb (fun m => refs_in lo hi (snd m)) ms
  | _ => true
  end.

(** No object of the value has a member named [__proto__] whose value is an
    object without members. *)
Fixpoint proto_free (v : JsonValue) : bool :=
  match v with
  | JArray _ els => forallb proto_free els
  | JObject _ ms =>
      forallb (fun m => negb (JsString_eqb (fst m) (js "__proto__")
                              && deepEqual_Object_prototype (snd m))
                        && proto_free (snd m)) ms
  | _ => true
  end.

(** The code units a JSON value can start with. *)
Definition starts_value (c : code_unit) : bool :=
  (c =? 34) || (c =? 91) || (c =? 123) || (c =? 110) || (c =? 116)
  || (c =? 102) || (c =? 45) || is_digit c.

(** What may follow a number in JSON text: the end, or a code unit no
    number token contains. *)
Definition delimited (rest : JsString) : Prop :=
  match rest with
  | [] => True
  | c :: _ => is_number_char c = false
  end.

(** [parse_value] reads the text of [v] back, up to the references of the
    objects and the sign of zero, and stops right after it. *)
Definition parses_back (v : JsonValue) : Prop :=
  representable v = true ->
  forall (fuel : nat) (rest : JsString) (next : ref),
    (cost v <= fuel)%nat ->
    delimited rest ->
    exists v' next',
      parse_value fuel (SerializeJSONProperty v ++ rest) next
      = Some (v', rest, next')
      /\ similar v' v = true.
(** * Properties *)

(** ** Strings *)

Lemma JsString_eqb_eq (s t : JsString) : JsString_eqb s t = true <-> s = t.
Proof.
  revert t. induction s as [|c s IH]; intros [|d t]; simpl; split;
    try congruence; try discriminate.
  - intros [Hc Hs]%andb_prop. apply Z.eqb_eq in Hc. apply IH in Hs. congruence.
  - intros [= -> ->]. rewrite Z.eqb_refl. simpl. now apply IH.
Qed.

Lemma JsString_eqb_refl (s : JsString) : JsString_eqb s s = true.
Proof. now apply JsString_eqb_eq. Qed.

Lemma JsString_eqb_neq (s t : JsString) : JsString_eqb s t = false <-> s <> t.
Proof.
  split.
  - intros H ->. rewrite JsString_eqb_refl in H. discriminate.
  - intros H. destruct (JsString_eqb s t) eqn:E; [|reflexivity].
    apply JsString_eqb_eq in E. contradiction.
Qed.

(** ** Induction on JSON values *)

Lemma JsonValue_induction (P : JsonValue -> Prop) :
  P JNull ->
  (forall b, P (JBoolean b)) ->
  (forall x, P (JNumber x)) ->
  (forall s, P (JString s)) ->
  (forall r els, Forall P els -> P (JArray r els)) ->
  (forall r ms, Forall (fun m => P (snd m)) ms -> P (JObject r ms)) ->
  forall v, P v.
Proof.
  intros Hnull Hbool Hnum Hstr Harr Hobj.
  fix IH 1. intros [ | b | x | s | r els | r ms].
  - exact Hnull.
  - apply Hbool.
  - apply Hnum.
  - apply Hstr.
  - apply Harr. revert els. fix IHels 1. intros [|el els].
    + constructor.
    + constructor; [apply IH | apply IHels].
  - apply Hobj. revert ms. fix IHms 1. intros [|[k el] ms].
    + constructor.
    + constructor; [apply IH | apply IHms].
Qed.

(** ** Lists *)

Lemma forallb2_Forall2 {A B : Type} (f : A -> B -> bool) (l1 : list A) (l2 : list B) :
  forallb2 f l1 l2 = true <-> Forall2 (fun a b => f a b = true) l1 l2.
Proof.
  revert l2. induction l1 as [|a l1 IH]; intros [|b l2]; simpl; split;
    try discriminate; try constructor; try (intros H; inversion H; fail).
  - apply andb_prop in H. tauto.
  - apply IH. apply andb_prop in H. tauto.
  - intros H. inversion H; subst. apply andb_true_intro. split; [assumption|].
    now apply IH.
Qed.

(** [every_from] with a callback that reads the other array by index is the
    pairwise comparison of the two arrays. *)
Lemma every_from_Forall2 {A : Type} (f : A -> A -> bool) (pre a1 a2 : list A) :
  length a1 = length a2 ->
  every_from (fun el i => match nth_error (pre ++ a2) i with
                          | Some el2 => f el el2
                          | None => false
                          end) a1 (length pre) = true
  <-> Forall2 (fun a b => f a b = true) a1 a2.
Proof.
  revert pre a2. induction a1 as [|el a1 IH]; intros pre [|el2 a2] Hlen;
    simpl in Hlen; try discriminate.
  - simpl. split; [constructor | reflexivity].
  - simpl. rewrite nth_error_app2 by lia. rewrite Nat.sub_diag. simpl.
    specialize (IH (pre ++ [el2]) a2).
    rewrite length_app in IH. simpl in IH.
    replace (length pre + 1)%nat with (S (length pre)) in IH by lia.
    rewrite <- app_assoc in IH. simpl in IH.
    rewrite andb_true_iff, IH by lia.
    split.
    + intros [H1 H2]. now constructor.
    + intros H. inversion H; subst. tauto.
Qed.

Lemma existsb_eqb_In (k : JsString) (keys : list JsString) :
  existsb (JsString_eqb k) keys = true <-> In k keys.
Proof.
  rewrite existsb_exists. split.
  - intros (x & Hin & Heq). apply JsString_eqb_eq in Heq. now subst.
  - intros Hin. exists k. split; [assumption | apply JsString_eqb_refl].
Qed.

Lemma distinct_cons (k : JsString) (keys : list JsString) :
  distinct (k :: keys) = true <-> ~ In k keys /\ distinct keys = true.
Proof.
  simpl. rewrite andb_true_iff, negb_true_iff. split.
  - intros [H1 H2]. split; [|assumption]. intros Hin.
    apply existsb_eqb_In in Hin. congruence.
  - intros [H1 H2]. split; [|assumption].
    destruct (existsb (JsString_eqb k) keys) eqn:E; [|reflexivity].
    apply existsb_eqb_In in E. contradiction.
Qed.

(** In an object without a repeated key, reading a key gives the member
    that carries it. *)
Lemma get_own_member (o : JsonObject) (k : JsString) (v : JsonValue) :
  distinct (map fst o) = true -> In (k, v) o -> get_own o k = Some v.
Proof.
  induction o as [|[k0 v0] o IH]; simpl; [contradiction|].
  intros Hd [Heq|Hin].
  - injection Heq as -> ->. now rewrite JsString_eqb_refl.
  - change (distinct (k0 :: map fst o) = true) in Hd.
    apply distinct_cons in Hd. destruct Hd as [Hnot Hd].
    destruct (JsString_eqb k0 k) eqn:E.
    + apply JsString_eqb_eq in E. subst k0. exfalso. apply Hnot.
      apply in_map_iff. exists (k, v). split; [reflexivity | assumption].
    + now apply IH.
Qed.

Lemma get_own_absent (o : JsonObject) (k : JsString) :
  ~ In k (map fst o) -> get_own o k = None.
Proof.
  induction o as [|[k0 v0] o IH]; simpl; [reflexivity|].
  intros Hnot. destruct (JsString_eqb k0 k) eqn:E.
  - apply JsString_eqb_eq in E. subst. exfalso. apply Hnot. now left.
  - apply IH. intros Hin. apply Hnot. now right.
Qed.

(** ** Numbers under [===] *)

Lemma Number_strict_equals_refl (x : Number) :
  Number_isNaN x = false -> Number_strict_equals x x = true.
Proof.
  unfold Number_strict_equals, SFeqb.
  destruct x as [s|s| |s m e]; simpl; try discriminate; intros _.
  - reflexivity.
  - destruct s; reflexivity.
  - rewrite Z.compare_refl, Pos.compare_cont_refl. destruct s; reflexivity.
Qed.




(** ** [deepEqual] *)

Lemma deepEqual_arrays (r1 r2 : ref) (a1 a2 : list JsonValue) :
  deepEqual (JArray r1 a1) (JArray r2 a2)
  = Nat.eqb r1 r2
    || (Nat.eqb (length a1) (length a2)
        && Array_every (fun el i => match nth_error a2 i with
                                    | Some el2 => deepEqual el el2
                                    | None => false
                                    end) a1).
Proof.
  simpl. destruct (Nat.eqb r1 r2); [reflexivity|].
  destruct (Nat.eqb (length a1) (length a2)); reflexivity.
Qed.

Lemma deepEqual_objects (r1 r2 : ref) (o1 o2 : JsonObject) :
  deepEqual (JObject r1 o1) (JObject r2 o2)
  = Nat.eqb r1 r2
    || (Nat.eqb (length o1) (length o2)
        && forallb (fun member =>
                      let '(key, objValue1) := member in
                      match get_own o2 key with
                      | Some objValue2 => deepEqual objValue1 objValue2
                      | None =>
                          JsString_eqb key (js "__proto__")
                          && deepEqual_Object_prototype objValue1
                      end) o1).
Proof.
  simpl. destruct (Nat.eqb r1 r2); [reflexivity|].
  destruct (Nat.eqb (length o1) (length o2)); reflexivity.
Qed.

Lemma deepEqual_numbers (x y : Number) :
  deepEqual (JNumber x) (JNumber y) = Number_strict_equals x y.
Proof. simpl. destruct (Number_strict_equals x y); reflexivity. Qed.

Lemma deepEqual_array_elements (a1 a2 : list JsonValue) :
  length a1 = length a2 ->
  (Array_every (fun el i => match nth_error a2 i with
                            | Some el2 => deepEqual el el2
                            | None => false
                            end) a1 = true
   <-> Forall2 (fun a b => deepEqual a b = true) a1 a2).
Proof.
  intros Hlen. exact (every_from_Forall2 deepEqual [] a1 a2 Hlen).
Qed.

(** Members of the same keys in the same order. *)
Lemma same_keys_map_fst (R : JsonValue -> JsonValue -> bool) (o1 o2 : JsonObject) :
  forallb2 (fun m1 m2 => JsString_eqb (fst m1) (fst m2) && R (snd m1) (snd m2))
    o1 o2 = true ->
  map fst o1 = map fst o2.
Proof.
  rewrite forallb2_Forall2. induction 1 as [|[k1 v1] [k2 v2] o1 o2 H _ IH];
    simpl; [reflexivity|].
  simpl in H. apply andb_prop in H. destruct H as [H _].
  apply JsString_eqb_eq in H. congruence.
Qed.

Lemma forallb2_length {A B : Type} (f : A -> B -> bool) (l1 : list A) (l2 : list B) :
  forallb2 f l1 l2 = true -> length l1 = length l2.
Proof.
  rewrite forallb2_Forall2. induction 1; simpl; congruence.
Qed.

(** Values of the same shape whose numbers are equal under [===] are
    deep-equal. *)
Lemma deepEqual_similar (v1 : JsonValue) :
  forall v2, similar v1 v2 = true -> well_formed v2 = true ->
             deepEqual v1 v2 = true.
Proof.
  induction v1 as [ | b | x | s | r els IH | r ms IH] using JsonValue_induction;
    intros [ | b2 | x2 | s2 | r2 els2 | r2 ms2] Hsim Hwf;
    try discriminate Hsim.
  - reflexivity.
  - simpl in *. now rewrite Hsim.
  - rewrite deepEqual_numbers. exact Hsim.
  - simpl in *. now rewrite Hsim.
  - rewrite deepEqual_arrays. apply orb_true_intro. right.
    change (forallb2 similar els els2 = true) in Hsim.
    pose proof (forallb2_length _ _ _ Hsim) as Hlen.
    rewrite Hlen, Nat.eqb_refl. simpl.
    apply (proj2 (deepEqual_array_elements _ _ Hlen)).
    apply forallb2_Forall2 in Hsim. simpl in Hwf.
    rewrite forallb_forall in Hwf.
    clear Hlen. induction Hsim as [|el el2 els els2 H Hsim IHsim];
      constructor.
    + inversion IH; subst. apply H2; [assumption|]. apply Hwf. now left.
    + inversion IH; subst. apply IHsim; [assumption|].
      intros x Hx. apply Hwf. now right.
  - rewrite deepEqual_objects. apply orb_true_intro. right.
    change (forallb2 (fun m1 m2 => JsString_eqb (fst m1) (fst m2)
                                   && similar (snd m1) (snd m2)) ms ms2 = true)
      in Hsim.
    pose proof (forallb2_length _ _ _ Hsim) as Hlen.
    rewrite Hlen, Nat.eqb_refl. simpl.
    simpl in Hwf. apply andb_prop in Hwf. destruct Hwf as [Hd Hwf].
    rewrite forallb_forall in Hwf.
    apply forallb2_Forall2 in Hsim.
    assert (Hmem : forall m, In m ms ->
                     exists v2, In (fst m, v2) ms2 /\ similar (snd m) v2 = true).
    { clear -Hsim. induction Hsim as [|[k v] [k2 v2] ms ms2 H _ IHs];
        intros m Hin; [contradiction|].
      simpl in H. apply andb_prop in H. destruct H as [Hk Hv].
      apply JsString_eqb_eq in Hk. subst k2.
      destruct Hin as [<-|Hin].
      - exists v2. split; [now left | assumption].
      - destruct (IHs m Hin) as (w & Hw1 & Hw2). exists w.
        split; [now right | assumption]. }
    apply forallb_forall. intros [k v] Hin.
    destruct (Hmem _ Hin) as (v2 & Hin2 & Hs2). simpl in Hin2, Hs2.
    rewrite (get_own_member ms2 k v2 Hd Hin2).
    rewrite List.Forall_forall in IH.
    apply (IH (k, v) Hin v2 Hs2). apply (Hwf (k, v2) Hin2).
Qed.





(** Line 185 of the source: a value passed twice is found equal at once,
    unless it is the number NaN. *)
Lemma deepEqual_same_reference (v : JsonValue) :
  deepEqual v v = match v with
                  | JNumber x => negb (Number_isNaN x)
                  | _ => true
                  end.
Proof.
  destruct v as [ | b | x | s | r els | r ms]; simpl.
  - reflexivity.
  - now rewrite eqb_reflx.
  - destruct (Number_isNaN x) eqn:E.
    + destruct x; try discriminate E. reflexivity.
    + now rewrite (Number_strict_equals_refl x E).
  - now rewrite JsString_eqb_refl.
  - now rewrite Nat.eqb_refl.
  - now rewrite Nat.eqb_refl.
Qed.



(** ** [deepEqual] against the specification's structural equality *)

Lemma refs_in_weaken (lo hi lo' hi' : nat) (v : JsonValue) :
  (lo' <= lo)%nat -> (hi <= hi')%nat ->
  refs_in lo hi v = true -> refs_in lo' hi' v = true.
Proof.
  intros Hlo Hhi.
  induction v as [ | b | x | s | r els IH | r ms IH] using JsonValue_induction;
    simpl; try reflexivity; intros H.
  - apply andb_prop in H. destruct H as [H Hels].
    apply andb_prop in H. destruct H as [H1 H2].
    apply Nat.leb_le in H1. apply Nat.ltb_lt in H2.
    apply andb_true_intro. split.
    + apply andb_true_intro. split;
        [apply Nat.leb_le | apply Nat.ltb_lt]; lia.
    + rewrite forallb_forall in Hels. apply forallb_forall.
      rewrite List.Forall_forall in IH. intros el Hin.
      apply (IH el Hin). now apply Hels.
  - apply andb_prop in H. destruct H as [H Hms].
    apply andb_prop in H. destruct H as [H1 H2].
    apply Nat.leb_le in H1. apply Nat.ltb_lt in H2.
    apply andb_true_intro. split.
    + apply andb_true_intro. split;
        [apply Nat.leb_le | apply Nat.ltb_lt]; lia.
    + rewrite forallb_forall in Hms. apply forallb_forall.
      rewrite List.Forall_forall in IH. intros m Hin.
      apply (IH m Hin). now apply Hms.
Qed.

Lemma get_own_In (o : JsonObject) (k : JsString) (v : JsonValue) :
  get_own o k = Some v -> exists k', In (k', v) o.
Proof.
  induction o as [|[k0 v0] o IH]; simpl; [discriminate|].
  destruct (JsString_eqb k0 k).
  - intros [= <-]. exists k0. now left.
  - intros H. destruct (IH H) as (k' & Hin). exists k'. now right.
Qed.

Lemma forallb2_ext_in {A B : Type} (f g : A -> B -> bool) (l1 : list A) (l2 : list B) :
  (forall a b, In a l1 -> In b l2 -> f a b = g a b) ->
  forallb2 f l1 l2 = forallb2 g l1 l2.
Proof.
  revert l2. induction l1 as [|a l1 IH]; intros [|b l2] H; simpl;
    try reflexivity.
  rewrite (H a b) by now left. f_equal. apply IH.
  intros a' b' Ha Hb. apply H; now right.
Qed.

Lemma forallb_ext_in {A : Type} (f g : A -> bool) (l : list A) :
  (forall a, In a l -> f a = g a) -> forallb f l = forallb g l.
Proof.
  induction l as [|a l IH]; intros H; simpl; [reflexivity|].
  rewrite (H a) by now left. f_equal. apply IH.
  intros a' Ha. apply H. now right.
Qed.

Lemma Array_every_forallb2 {A : Type} (f : A -> A -> bool) (a1 a2 : list A) :
  length a1 = length a2 ->
  Array_every (fun el i => match nth_error a2 i with
                           | Some el2 => f el el2
                           | None => false
                           end) a1
  = forallb2 f a1 a2.
Proof.
  intros Hlen. apply eq_true_iff_eq.
  rewrite forallb2_Forall2. exact (every_from_Forall2 f [] a1 a2 Hlen).
Qed.

(** Between two values that share no object, and the first of which has no
    empty [__proto__] member, the source's [deepEqual] is the specification's
    structural equality. *)
Lemma deepEqual_structurally_equal (lo mid hi : nat) (v1 : JsonValue) :
  forall v2,
    refs_in lo mid v1 = true -> refs_in mid hi v2 = true ->
    proto_free v1 = true ->
    deepEqual v1 v2 = structurally_equal v1 v2.
Proof.
  induction v1 as [ | b | x | s | r els IH | r ms IH] using JsonValue_induction;
    intros [ | b2 | x2 | s2 | r2 els2 | r2 ms2] H1 H2 Hfree;
    try reflexivity.
  - simpl. destruct (Bool.eqb b b2); reflexivity.
  - apply deepEqual_numbers.
  - simpl. destruct (JsString_eqb s s2); reflexivity.
  - rewrite deepEqual_arrays. simpl structurally_equal.
    simpl in H1, H2, Hfree.
    apply andb_prop in H1. destruct H1 as [H1 Hels1].
    apply andb_prop in H1. destruct H1 as [_ Hr1]. apply Nat.ltb_lt in Hr1.
    apply andb_prop in H2. destruct H2 as [H2 Hels2].
    apply andb_prop in H2. destruct H2 as [Hr2 _]. apply Nat.leb_le in Hr2.
    replace (Nat.eqb r r2) with false by (symmetry; apply Nat.eqb_neq; lia).
    simpl. destruct (Nat.eqb (length els) (length els2)) eqn:Hlen;
      [|reflexivity].
    apply Nat.eqb_eq in Hlen. simpl.
    rewrite (Array_every_forallb2 deepEqual els els2 Hlen).
    apply forallb2_ext_in. intros a b Ha Hb.
    rewrite List.Forall_forall in IH. rewrite forallb_forall in Hels1, Hels2, Hfree.
    apply (IH a Ha b); auto.
  - rewrite deepEqual_objects. simpl structurally_equal.
    simpl in H1, H2, Hfree.
    apply andb_prop in H1. destruct H1 as [H1 Hms1].
    apply andb_prop in H1. destruct H1 as [_ Hr1]. apply Nat.ltb_lt in Hr1.
    apply andb_prop in H2. destruct H2 as [H2 Hms2].
    apply andb_prop in H2. destruct H2 as [Hr2 _]. apply Nat.leb_le in Hr2.
    replace (Nat.eqb r r2) with false by (symmetry; apply Nat.eqb_neq; lia).
    simpl. f_equal. apply forallb_ext_in.
    intros [k v] Hin. simpl.
    rewrite List.Forall_forall in IH. rewrite forallb_forall in Hms1, Hms2, Hfree.
    specialize (Hfree (k, v) Hin). simpl in Hfree.
    apply andb_prop in Hfree. destruct Hfree as [Hquirk Hfree].
    destruct (get_own ms2 k) as [v2|] eqn:Hget.
    + destruct (get_own_In _ _ _ Hget) as (k' & Hin2).
      apply (IH (k, v) Hin v2); [apply (Hms1 (k, v) Hin) | | exact Hfree].
      apply (Hms2 (k', v2) Hin2).
    + apply negb_true_iff in Hquirk. exact Hquirk.
Qed.

(** Values the specification finds equal are always deep-equal for the
    source. *)
Lemma structurally_equal_deepEqual (v1 : JsonValue) :
  forall v2, structurally_equal v1 v2 = true -> deepEqual v1 v2 = true.
Proof.
  induction v1 as [ | b | x | s | r els IH | r ms IH] using JsonValue_induction;
    intros [ | b2 | x2 | s2 | r2 els2 | r2 ms2] H; try discriminate H.
  - reflexivity.
  - simpl in *. now rewrite H.
  - now rewrite deepEqual_numbers.
  - simpl in *. now rewrite H.
  - rewrite deepEqual_arrays. apply orb_true_intro. right.
    simpl in H. apply andb_prop in H. destruct H as [Hlen H].
    rewrite Hlen. simpl. apply Nat.eqb_eq in Hlen.
    rewrite (Array_every_forallb2 deepEqual els els2 Hlen).
    apply forallb2_Forall2. apply forallb2_Forall2 in H.
    clear Hlen. induction H as [|a b els els2 Hab _ IHf]; constructor;
      inversion IH; subst; auto.
  - rewrite deepEqual_objects. apply orb_true_intro. right.
    simpl in H. apply andb_prop in H. destruct H as [Hlen H].
    rewrite Hlen. simpl. rewrite forallb_forall in H. apply forallb_forall.
    rewrite List.Forall_forall in IH. intros [k v] Hin.
    specialize (H (k, v) Hin). simpl in H.
    destruct (get_own ms2 k) as [v2|]; [|discriminate].
    apply (IH (k, v) Hin v2 H).
Qed.

(** ** Strings through QuoteJSONString and back *)

Lemma hex_value_hex_digit (d : Z) :
  0 <= d < 16 -> hex_value (hex_digit d) = Some d.
Proof.
  intros Hd.
  assert (H : d = 0 \/ d = 1 \/ d = 2 \/ d = 3 \/ d = 4 \/ d = 5 \/ d = 6
              \/ d = 7 \/ d = 8 \/ d = 9 \/ d = 10 \/ d = 11 \/ d = 12
              \/ d = 13 \/ d = 14 \/ d = 15) by lia.
  repeat (destruct H as [->|H]; [reflexivity|]). subst d. reflexivity.
Qed.

Lemma hex4_value_unicode_escape (c : code_unit) :
  is_code_unit c = true ->
  hex4_value (hex_digit (c / 4096)) (hex_digit (c / 256 mod 16))
    (hex_digit (c / 16 mod 16)) (hex_digit (c mod 16)) = Some c.
Proof.
  unfold is_code_unit. intros H. apply andb_prop in H. destruct H as [H0 H1].
  apply Z.leb_le in H0. apply Z.ltb_lt in H1.
  unfold hex4_value.
  assert (B3 : 0 <= c / 4096 < 16).
  { split; [apply Z.div_pos; lia | apply Z.div_lt_upper_bound; lia]. }
  pose proof (Z.mod_pos_bound (c / 256) 16 eq_refl) as B2.
  pose proof (Z.mod_pos_bound (c / 16) 16 eq_refl) as B1.
  pose proof (Z.mod_pos_bound c 16 eq_refl) as B0.
  rewrite !hex_value_hex_digit by assumption.
  f_equal.
  pose proof (Z.div_mod c 16 ltac:(lia)) as E0.
  pose proof (Z.div_mod (c / 16) 16 ltac:(lia)) as E1.
  pose proof (Z.div_mod (c / 256) 16 ltac:(lia)) as E2.
  replace (c / 16 / 16) with (c / 256) in E1
    by (rewrite Z.div_div by lia; reflexivity).
  replace (c / 256 / 16) with (c / 4096) in E2
    by (rewrite Z.div_div by lia; reflexivity).
  lia.
Qed.

Lemma parse_string_units_raw (c : code_unit) (tail str rest : JsString) :
  c <> 34 -> c <> 92 -> 32 <= c ->
  parse_string_units tail = Some (str, rest) ->
  parse_string_units (c :: tail) = Some (c :: str, rest).
Proof.
  intros H34 H92 H32 Htail. simpl.
  destruct (Z.eqb_spec c 34); [contradiction|].
  destruct (Z.eqb_spec c 92); [contradiction|].
  destruct (Z.ltb_spec c 32); [lia|].
  now rewrite Htail.
Qed.

Lemma parse_string_units_unicode (c : code_unit) (tail str rest : JsString) :
  is_code_unit c = true ->
  parse_string_units tail = Some (str, rest) ->
  parse_string_units (unicode_escape c ++ tail) = Some (c :: str, rest).
Proof.
  intros Hc Htail. unfold unicode_escape. simpl.
  now rewrite (hex4_value_unicode_escape c Hc), Htail.
Qed.

Lemma parse_string_units_quote_unit (c : code_unit) (tail str rest : JsString) :
  is_code_unit c = true ->
  parse_string_units tail = Some (str, rest) ->
  parse_string_units (quote_unit c ++ tail) = Some (c :: str, rest).
Proof.
  intros Hc Htail. unfold quote_unit.
  repeat match goal with
         | |- context [if ?x =? ?k then _ else _] =>
             destruct (Z.eqb_spec x k);
             [subst; simpl; rewrite Htail; reflexivity|]
         end.
  destruct ((c <? 32) || is_leading_surrogate c || is_trailing_surrogate c)
    eqn:E.
  - now apply parse_string_units_unicode.
  - apply orb_false_elim in E. destruct E as [E _].
    apply orb_false_elim in E. destruct E as [E _].
    apply Z.ltb_ge in E. now apply parse_string_units_raw.
Qed.

Lemma parse_string_units_quote_units (s : JsString) :
  JsString_valid s = true ->
  forall rest,
    parse_string_units (quote_units s ++ 34 :: rest) = Some (s, rest).
Proof.
  remember (length s) as n eqn:Hn. revert s Hn.
  induction n as [n IH] using lt_wf_ind. intros s Hn Hvalid rest.
  destruct s as [|c s]; [reflexivity|].
  simpl in Hvalid. apply andb_prop in Hvalid. destruct Hvalid as [Hc Hs].
  simpl quote_units.
  assert (Hrest : parse_string_units (quote_units s ++ 34 :: rest)
                  = Some (s, rest)).
  { apply (IH (length s)); [simpl in Hn; lia | reflexivity | assumption]. }
  destruct (is_leading_surrogate c) eqn:Hlead.
  - destruct s as [|d s'].
    + apply parse_string_units_quote_unit; [assumption | reflexivity].
    + destruct (is_trailing_surrogate d) eqn:Htrail.
      * simpl in Hs. apply andb_prop in Hs. destruct Hs as [Hd Hs'].
        unfold is_leading_surrogate in Hlead.
        unfold is_trailing_surrogate in Htrail.
        apply andb_prop in Hlead. destruct Hlead as [Hl1 Hl2].
        apply andb_prop in Htrail. destruct Htrail as [Ht1 Ht2].
        apply Z.leb_le in Hl1, Hl2, Ht1, Ht2.
        simpl app.
        apply parse_string_units_raw; try lia.
        apply parse_string_units_raw; try lia.
        apply (IH (length s')); [simpl in Hn; lia | reflexivity | assumption].
      * rewrite <- app_assoc. now apply parse_string_units_quote_unit.
  - rewrite <- app_assoc. now apply parse_string_units_quote_unit.
Qed.

(** ** Decimal numerals *)

Lemma digits_value_snoc (ds : JsString) (c : code_unit) :
  digits_value (ds ++ [c]) = digits_value ds * 10 + (c - 48).
Proof. unfold digits_value. now rewrite fold_left_app. Qed.

Lemma fold_digits_zeros (j : nat) (acc : Z) :
  fold_left (fun acc d => acc * 10 + (d - 48)) (repeat 48 j) acc
  = acc * 10 ^ Z.of_nat j.
Proof.
  revert acc. induction j as [|j IH]; intros acc.
  - simpl. rewrite Z.pow_0_r. lia.
  - cbn [repeat fold_left]. rewrite IH.
    rewrite Nat2Z.inj_succ, Z.pow_succ_r by lia. ring.
Qed.

Lemma digits_value_app_zeros (ds : JsString) (j : Z) :
  0 <= j -> digits_value (ds ++ zeros j) = digits_value ds * 10 ^ j.
Proof.
  intros Hj. unfold digits_value, zeros.
  rewrite fold_left_app, fold_digits_zeros, Z2Nat.id by lia. reflexivity.
Qed.

Lemma digits_value_zeros_app (j : Z) (ds : JsString) :
  digits_value (48 :: zeros j ++ ds) = digits_value ds.
Proof.
  unfold digits_value, zeros. cbn [fold_left].
  rewrite fold_left_app, fold_digits_zeros. reflexivity.
Qed.

Lemma forallb_is_digit_zeros (j : Z) : forallb is_digit (zeros j) = true.
Proof.
  unfold zeros. induction (Z.to_nat j) as [|i IH]; simpl; [reflexivity|].
  exact IH.
Qed.

Lemma length_zeros (j : Z) : length (zeros j) = Z.to_nat j.
Proof. unfold zeros. apply repeat_length. Qed.

Lemma to_digits_eq (fuel : nat) (n : Z) (acc : JsString) :
  to_digits (S fuel) n acc
  = if n <? 10 then (48 + n mod 10) :: acc
    else to_digits fuel (n / 10) ((48 + n mod 10) :: acc).
Proof. reflexivity. Qed.

(** What [to_digits] puts in front of [acc]: the digits of [n], without a
    leading zero. *)
Lemma to_digits_spec (fuel : nat) :
  forall (n : Z) (acc : JsString),
    0 <= n < 2 ^ Z.of_nat (S fuel) ->
    exists ds,
      to_digits (S fuel) n acc = ds ++ acc
      /\ forallb is_digit ds = true
      /\ digits_value ds = n
      /\ exists c more, ds = c :: more /\ (1 <= n -> 49 <= c <= 57).
Proof.
  induction fuel as [|fuel IH]; intros n acc Hn;
    rewrite to_digits_eq; destruct (Z.ltb_spec n 10) as [Hlt|Hge];
    try (change (2 ^ Z.of_nat 1) with 2 in Hn; lia).
  1, 2: exists [48 + n mod 10]; rewrite Z.mod_small by lia;
    (split; [reflexivity|]); split;
    [ simpl; unfold is_digit;
      replace (48 <=? 48 + n) with true by (symmetry; apply Z.leb_le; lia);
      replace (48 + n <=? 57) with true by (symmetry; apply Z.leb_le; lia);
      reflexivity
    | split; [unfold digits_value; simpl; lia|];
      exists (48 + n), []; split; [reflexivity | lia] ].
  assert (Hq : 0 <= n / 10 < 2 ^ Z.of_nat (S fuel)).
  { split; [apply Z.div_pos; lia|].
    rewrite (Nat2Z.inj_succ (S fuel)), Z.pow_succ_r in Hn by lia.
    apply Z.div_lt_upper_bound; lia. }
  destruct (IH (n / 10) ((48 + n mod 10) :: acc) Hq)
    as (ds & Heq & Hdig & Hval & c & more & Hds & Hhead).
  exists (ds ++ [48 + n mod 10]).
  pose proof (Z.mod_pos_bound n 10 ltac:(lia)) as Hm.
  split; [rewrite Heq, <- app_assoc; reflexivity|]. split.
  - rewrite forallb_app, Hdig. simpl. unfold is_digit.
    replace (48 <=? 48 + n mod 10) with true
      by (symmetry; apply Z.leb_le; lia).
    replace (48 + n mod 10 <=? 57) with true
      by (symmetry; apply Z.leb_le; lia).
    reflexivity.
  - split.
    + rewrite digits_value_snoc, Hval.
      pose proof (Z.div_mod n 10 ltac:(lia)). lia.
    + exists c, (more ++ [48 + n mod 10]). rewrite Hds.
      split; [reflexivity|]. intros _. apply Hhead.
      apply Z.div_le_lower_bound; lia.
Qed.

Lemma decimal_spec (n : Z) :
  0 <= n ->
  forallb is_digit (decimal n) = true
  /\ digits_value (decimal n) = n
  /\ exists c more, decimal n = c :: more /\ (1 <= n -> 49 <= c <= 57).
Proof.
  intros Hn. unfold decimal.
  destruct (to_digits_spec (Z.to_nat (Z.log2 n)) n []) as (ds & Heq & H).
  - split; [lia|]. rewrite Nat2Z.inj_succ, Z2Nat.id by apply Z.log2_nonneg.
    destruct (Z.eq_dec n 0) as [->|Hnz]; [reflexivity|].
    apply Z.log2_spec. lia.
  - rewrite app_nil_r in Heq. rewrite Heq. exact H.
Qed.

(** ** Number tokens *)

Lemma span_app (p : code_unit -> bool) (tok rest : JsString) :
  forallb p tok = true ->
  match rest with [] => True | c :: _ => p c = false end ->
  span p (tok ++ rest) = (tok, rest).
Proof.
  intros Htok Hrest. induction tok as [|c tok IH]; simpl.
  - destruct rest as [|c rest]; [reflexivity|]. simpl. now rewrite Hrest.
  - simpl in Htok. apply andb_prop in Htok. destruct Htok as [Hc Htok].
    now rewrite Hc, (IH Htok).
Qed.

Lemma is_digit_number_char (ds : JsString) :
  forallb is_digit ds = true -> forallb is_number_char ds = true.
Proof.
  intros H. rewrite forallb_forall in H. apply forallb_forall.
  intros c Hin. unfold is_number_char. now rewrite (H c Hin).
Qed.

Lemma parse_unsigned_parts (c : code_unit) (more tail fp r2 : JsString) (ex : Z) :
  forallb is_digit (c :: more) = true ->
  (c =? 48) && nonempty more = false ->
  match tail with [] => True | x :: _ => is_digit x = false end ->
  parse_fraction tail = Some (fp, r2) ->
  parse_exponent r2 = Some ex ->
  parse_unsigned ((c :: more) ++ tail)
  = Some match digits_value ((c :: more) ++ fp) with
         | Zpos s => round_decimal s (ex - Z.of_nat (length fp))
         | _ => S754_zero false
         end.
Proof.
  intros Hdig Hzero Htail Hfrac Hexp. unfold parse_unsigned.
  rewrite (span_app is_digit (c :: more) tail Hdig Htail).
  now rewrite Hzero, Hfrac, Hexp.
Qed.

Lemma parse_fraction_digits (fp rest : JsString) :
  forallb is_digit fp = true -> nonempty fp = true ->
  match rest with [] => True | x :: _ => is_digit x = false end ->
  parse_fraction (46 :: fp ++ rest) = Some (fp, rest).
Proof.
  intros Hdig Hne Hrest. unfold parse_fraction. simpl.
  now rewrite (span_app is_digit fp rest Hdig Hrest), Hne.
Qed.

Lemma parse_exponent_part (n : Z) :
  parse_exponent (exponent_part n) = Some (n - 1)
  /\ forallb is_number_char (exponent_part n) = true.
Proof.
  unfold exponent_part.
  destruct (decimal_spec (Z.abs (n - 1)) ltac:(lia))
    as (Hdig & Hval & c & more & Hds & _).
  split.
  - unfold parse_exponent. simpl.
    assert (Hspan : span is_digit (decimal (Z.abs (n - 1)))
                    = (decimal (Z.abs (n - 1)), [])).
    { rewrite <- (app_nil_r (decimal _)) at 1. now apply span_app. }
    destruct (Z.ltb_spec (n - 1) 0); simpl; rewrite Hspan, Hval, Hds; simpl;
      f_equal; lia.
  - simpl. rewrite (is_digit_number_char _ Hdig).
    destruct (n - 1 <? 0); reflexivity.
Qed.

Lemma nonempty_cons (c : code_unit) (s : JsString) : nonempty (c :: s) = true.
Proof. reflexivity. Qed.

(** The text [layout] makes of the digits of [d] reads back as the decimal
    [d * 10^(n-k)]. *)
Lemma parse_unsigned_layout (d : positive) (n k : Z) :
  Z.of_nat (length (decimal (Zpos d))) = k ->
  parse_unsigned (layout (decimal (Zpos d)) n k) = Some (round_decimal d (n - k))
  /\ forallb is_number_char (layout (decimal (Zpos d)) n k) = true
  /\ exists c tail, layout (decimal (Zpos d)) n k = c :: tail
                    /\ is_digit c = true.
Proof.
  intros Hk.
  destruct (decimal_spec (Zpos d) ltac:(lia))
    as (Hdig & Hval & c & more & Hds & Hhead).
  specialize (Hhead ltac:(lia)).
  remember (decimal (Zpos d)) as ds eqn:Eds. clear Eds.
  assert (Hc48 : (c =? 48) = false) by (apply Z.eqb_neq; lia).
  assert (Hcdig : is_digit c = true).
  { rewrite Hds in Hdig. simpl in Hdig. apply andb_prop in Hdig. tauto. }
  unfold layout.
  destruct ((k <=? n) && (n <=? 21)) eqn:HA.
  { (* digits, then zeros *)
    apply andb_prop in HA. destruct HA as [HA _]. apply Z.leb_le in HA.
    assert (Hall : forallb is_digit (ds ++ zeros (n - k)) = true)
      by now rewrite forallb_app, Hdig, forallb_is_digit_zeros.
    split; [|split].
    - rewrite <- (app_nil_r (ds ++ zeros (n - k))).
      rewrite Hds, <- app_comm_cons.
      rewrite (parse_unsigned_parts c (more ++ zeros (n - k)) [] [] [] 0);
        [ | rewrite app_comm_cons, <- Hds; exact Hall
          | now rewrite Hc48 | exact I | reflexivity | reflexivity ].
      rewrite app_nil_r, app_comm_cons, <- Hds.
      rewrite digits_value_app_zeros, Hval by lia.
      f_equal. simpl length.
      destruct (n - k) as [|p|p] eqn:Hnk; try lia.
      + rewrite Z.pow_0_r, Z.mul_1_r. reflexivity.
      + rewrite <- Pos2Z.inj_pow, <- Pos2Z.inj_mul. reflexivity.
    - now apply is_digit_number_char.
    - exists c, (more ++ zeros (n - k)). rewrite Hds. split; [reflexivity|].
      exact Hcdig. }
  destruct ((0 <? n) && (n <=? 21)) eqn:HB.
  { (* digits, a point, digits *)
    apply andb_prop in HB. destruct HB as [HB1 HB2].
    apply Z.ltb_lt in HB1. apply Z.leb_le in HB2.
    assert (Hnk : n < k).
    { destruct (Z.lt_ge_cases n k) as [Hlt|Hge]; [exact Hlt|]. exfalso.
      rewrite (proj2 (Z.leb_le k n) Hge), (proj2 (Z.leb_le n 21) HB2) in HA.
      discriminate HA. }
    assert (Htake : exists more', take (Z.to_nat n) ds = c :: more').
    { rewrite Hds. destruct (Z.to_nat n) as [|i] eqn:Hi; [lia|].
      simpl. eauto. }
    destruct Htake as (more' & Htake).
    assert (Hsplit : take (Z.to_nat n) ds ++ drop (Z.to_nat n) ds = ds)
      by apply take_drop.
    assert (Hdig2 : forallb is_digit (take (Z.to_nat n) ds) = true
                    /\ forallb is_digit (drop (Z.to_nat n) ds) = true).
    { rewrite <- Hsplit, forallb_app in Hdig. now apply andb_prop in Hdig. }
    destruct Hdig2 as [Hdt Hdd].
    assert (Hdrop : nonempty (drop (Z.to_nat n) ds) = true).
    { destruct (drop (Z.to_nat n) ds) eqn:E; [|reflexivity].
      apply (f_equal length) in E. rewrite length_drop in E. simpl in E. lia. }
    split; [|split].
    - rewrite Htake.
      rewrite (parse_unsigned_parts c more' (46 :: drop (Z.to_nat n) ds)
                 (drop (Z.to_nat n) ds) [] 0);
        [ | now rewrite <- Htake | now rewrite Hc48 | reflexivity
          | rewrite <- (app_nil_r (drop _ _)) at 1;
            now apply parse_fraction_digits
          | reflexivity ].
      rewrite <- Htake, Hsplit, Hval. f_equal. f_equal.
      rewrite length_drop. lia.
    - rewrite forallb_app. simpl.
      now rewrite (is_digit_number_char _ Hdt), (is_digit_number_char _ Hdd).
    - exists c, (more' ++ 46 :: drop (Z.to_nat n) ds). rewrite Htake.
      split; [reflexivity | exact Hcdig]. }
  destruct ((-6 <? n) && (n <=? 0)) eqn:HC.
  { (* zero, a point, zeros, digits *)
    apply andb_prop in HC. destruct HC as [_ HC]. apply Z.leb_le in HC.
    assert (Hall : forallb is_digit (zeros (- n) ++ ds) = true)
      by now rewrite forallb_app, forallb_is_digit_zeros, Hdig.
    split; [|split].
    - change (48 :: 46 :: zeros (- n) ++ ds)
        with ([48] ++ 46 :: zeros (- n) ++ ds).
      rewrite (parse_unsigned_parts 48 [] (46 :: zeros (- n) ++ ds)
                 (zeros (- n) ++ ds) [] 0);
        [ | reflexivity | reflexivity | reflexivity
          | rewrite <- (app_nil_r (zeros (- n) ++ ds)) at 1;
            apply parse_fraction_digits; [exact Hall | | exact I];
            rewrite Hds; destruct (zeros (- n)); reflexivity
          | reflexivity ].
      change ([48] ++ zeros (- n) ++ ds) with (48 :: zeros (- n) ++ ds).
      rewrite digits_value_zeros_app, Hval. f_equal. f_equal.
      rewrite length_app, length_zeros. lia.
    - simpl. apply is_digit_number_char. exact Hall.
    - exists 48, (46 :: zeros (- n) ++ ds). split; reflexivity. }
  (* one digit, perhaps a point and digits, an exponent *)
  destruct (parse_exponent_part n) as [Hexp Hexpchars].
  assert (Hetail : match exponent_part n with
                   | [] => True
                   | x :: _ => is_digit x = false
                   end) by reflexivity.
  subst ds. simpl in Hdig. apply andb_prop in Hdig. destruct Hdig as [_ Hmore].
  destruct more as [|c2 more].
  - split; [|split].
    + change (c :: exponent_part n) with ([c] ++ exponent_part n).
      rewrite (parse_unsigned_parts c [] (exponent_part n) [] (exponent_part n)
                 (n - 1));
        [ | simpl; now rewrite Hcdig | now rewrite Hc48 | exact Hetail
          | reflexivity | exact Hexp ].
      simpl app. rewrite Hval. f_equal. f_equal. simpl in Hk. simpl. lia.
    + change (is_number_char c && forallb is_number_char (exponent_part n)
              = true).
      unfold is_number_char at 1. now rewrite Hcdig, Hexpchars.
    + exists c, (exponent_part n). split; [reflexivity | exact Hcdig].
  - split; [|split].
    + change (c :: 46 :: (c2 :: more) ++ exponent_part n)
        with ([c] ++ 46 :: (c2 :: more) ++ exponent_part n).
      rewrite (parse_unsigned_parts c [] (46 :: (c2 :: more) ++ exponent_part n)
                 (c2 :: more) (exponent_part n) (n - 1));
        [ | simpl; now rewrite Hcdig | now rewrite Hc48 | reflexivity
          | now apply parse_fraction_digits | exact Hexp ].
      simpl app. rewrite Hval. f_equal. f_equal. simpl in Hk.
      simpl length. lia.
    + change (forallb is_number_char
                ([c; 46] ++ (c2 :: more) ++ exponent_part n) = true).
      rewrite !forallb_app, Hexpchars, (is_digit_number_char _ Hmore).
      cbn [forallb]. unfold is_number_char at 1. now rewrite Hcdig.
    + exists c, (46 :: (c2 :: more) ++ exponent_part n).
      split; [reflexivity | exact Hcdig].
Qed.

Lemma SFeqb_opp_finite (y : Number) (m : positive) (e : Z) :
  SFeqb y (S754_finite false m e) = true ->
  SFeqb (SFopp y) (S754_finite true m e) = true.
Proof.
  unfold SFeqb. destruct y as [s|s| |s m' e']; simpl; try discriminate.
  - destruct s; discriminate.
  - destruct s; [discriminate|]. simpl.
    destruct (e' ?= e); try discriminate.
    destruct (Pos.compare_cont Eq m' m); try discriminate. reflexivity.
Qed.

Lemma parse_number_token_minus (r : JsString) :
  parse_number_token (45 :: r) = option_map SFopp (parse_unsigned r).
Proof. reflexivity. Qed.

Lemma parse_number_token_unsigned (c : code_unit) (r : JsString) :
  c <> 45 -> parse_number_token (c :: r) = parse_unsigned (c :: r).
Proof.
  intros Hc. unfold parse_number_token, starts_with.
  now replace (c =? 45) with false by (symmetry; apply Z.eqb_neq; lia).
Qed.

(** The text [Number::toString] gives a representable number is a number
    token, and reads back as a number strictly equal to it. *)
Lemma Number_text_roundtrip (x : Number) :
  Number_representable x = true ->
  Number_isFinite x = true
  /\ forallb is_number_char (Number_toString x) = true
  /\ (exists y, parse_number_token (Number_toString x) = Some y
                /\ Number_strict_equals y x = true)
  /\ exists c tail, Number_toString x = c :: tail
                    /\ (c = 45 \/ 48 <= c <= 57).
Proof.
  destruct x as [s|s| |s m e]; try discriminate; intros Hrep.
  - split; [reflexivity|]. split; [reflexivity|]. split.
    + exists (S754_zero false). split; [reflexivity|]. destruct s; reflexivity.
    + exists 48, []. split; [reflexivity | lia].
  - simpl in Hrep. unfold toString_digits_ok in Hrep.
    cbn [Number_toString].
    destruct (shortest_decimal m e) as [[d n] k].
    apply andb_prop in Hrep. destruct Hrep as [Hround Hlen].
    apply Z.eqb_eq in Hlen.
    destruct d as [|p|p]; try discriminate Hround. simpl in Hround.
    destruct (parse_unsigned_layout p n k Hlen)
      as (Hparse & Hchars & c & tail & Hhead & Hc).
    assert (Hcd : 48 <= c <= 57).
    { unfold is_digit in Hc. apply andb_prop in Hc. destruct Hc as [H1 H2].
      apply Z.leb_le in H1, H2. lia. }
    split; [reflexivity|].
    destruct s; cbn [app].
    + split; [|split].
      * cbn [forallb]. now rewrite Hchars.
      * exists (SFopp (round_decimal p (n - k))). split.
        -- now rewrite parse_number_token_minus, Hparse.
        -- now apply SFeqb_opp_finite.
      * exists 45, (layout (decimal (Zpos p)) n k). split; [reflexivity|].
        now left.
    + split; [|split].
      * exact Hchars.
      * exists (round_decimal p (n - k)). split; [|exact Hround].
        rewrite <- Hparse, Hhead. apply parse_number_token_unsigned. lia.
      * exists c, tail. split; [exact Hhead | now right].
Qed.

(** ** Numbers in the text of a value *)

Lemma parse_value_number (fuel : nat) (c : code_unit) (r : JsString) (next : ref) :
  c = 45 \/ 48 <= c <= 57 ->
  parse_value (S fuel) (c :: r) next
  = let '(tok, rest) := span is_number_char (c :: r) in
    match parse_number_token tok with
    | Some x => Some (JNumber x, rest, next)
    | None => None
    end.
Proof.
  intros Hc.
  assert (Hws : is_ws c = false).
  { unfold is_ws. repeat (apply orb_false_intro); apply Z.eqb_neq; lia. }
  assert (E34 : (c =? 34) = false) by (apply Z.eqb_neq; lia).
  assert (E91 : (c =? 91) = false) by (apply Z.eqb_neq; lia).
  assert (E123 : (c =? 123) = false) by (apply Z.eqb_neq; lia).
  assert (E110 : (110 =? c) = false) by (apply Z.eqb_neq; lia).
  assert (E116 : (116 =? c) = false) by (apply Z.eqb_neq; lia).
  assert (E102 : (102 =? c) = false) by (apply Z.eqb_neq; lia).
  cbn [parse_value skip_ws]. rewrite Hws, E34, E91, E123.
  cbn [strip_prefix js list_ascii_of_string map].
  change (Z.of_N (N_of_ascii "n")) with 110.
  change (Z.of_N (N_of_ascii "t")) with 116.
  change (Z.of_N (N_of_ascii "f")) with 102.
  rewrite E110, E116, E102. reflexivity.
Qed.

(** A representable number at the head of a text, followed by something no
    number contains, is read back whole. *)
Lemma Number_representable_parses (x : Number) (fuel : nat) (rest : JsString)
  (next : ref) :
  Number_representable x = true ->
  delimited rest ->
  exists y,
    parse_value (S fuel) (Number_toString x ++ rest) next
    = Some (JNumber y, rest, next)
    /\ Number_strict_equals y x = true.
Proof.
  intros Hrep Hrest.
  destruct (Number_text_roundtrip x Hrep)
    as (_ & Hchars & (y & Hy & Heq) & c & tail & Htok & Hc).
  exists y. split; [|exact Heq].
  rewrite Htok. simpl app. rewrite (parse_value_number fuel c _ next Hc).
  change (c :: tail ++ rest) with ((c :: tail) ++ rest). rewrite <- Htok.
  rewrite (span_app is_number_char _ rest Hchars Hrest). now rewrite Hy.
Qed.

(** ** Values through JSON.stringify and back *)

Lemma starts_value_facts (c : code_unit) :
  starts_value c = true -> is_ws c = false /\ (c =? 93) = false.
Proof.
  unfold starts_value, is_digit, is_ws. intros H.
  repeat (apply orb_prop in H; destruct H as [H|H]);
    try (apply Z.eqb_eq in H; subst c; split; reflexivity).
  apply andb_prop in H. destruct H as [H1 H2]. apply Z.leb_le in H1, H2.
  split; [repeat (apply orb_false_intro)|]; apply Z.eqb_neq; lia.
Qed.

Lemma serialized_head (v : JsonValue) :
  representable v = true ->
  exists c tail, SerializeJSONProperty v = c :: tail /\ starts_value c = true.
Proof.
  destruct v as [ | [|] | x | s | r els | r ms]; intros Hrep;
    try (eexists _, _; split; [reflexivity | reflexivity]).
  simpl in Hrep.
  destruct (Number_text_roundtrip x Hrep) as (Hfin & _ & _ & c & tail & Htok & Hc).
  simpl. rewrite Hfin.
  exists c, tail. split; [assumption|].
  unfold starts_value, is_digit.
  destruct Hc as [->|Hc]; [reflexivity|].
  replace (48 <=? c) with true by (symmetry; apply Z.leb_le; lia).
  replace (c <=? 57) with true by (symmetry; apply Z.leb_le; lia).
  now rewrite !orb_true_r.
Qed.

Lemma skip_ws_serialized (v : JsonValue) (rest : JsString) :
  representable v = true ->
  skip_ws (SerializeJSONProperty v ++ rest) = SerializeJSONProperty v ++ rest
  /\ starts_with 93 (SerializeJSONProperty v ++ rest) = None.
Proof.
  intros Hrep. destruct (serialized_head v Hrep) as (c & tail & -> & Hc).
  destruct (starts_value_facts c Hc) as [Hws H93].
  simpl. now rewrite Hws, H93.
Qed.

Lemma parse_elements_eq (fuel : nat) (s : JsString) (next : ref) :
  parse_elements (S fuel) s next
  = match parse_value fuel s next with
    | None => None
    | Some (v, r, next1) =>
        match starts_with 44 (skip_ws r), starts_with 93 (skip_ws r) with
        | Some r1, _ =>
            match parse_elements fuel r1 next1 with
            | Some (vs, rest, next2) => Some (v :: vs, rest, next2)
            | None => None
            end
        | None, Some rest => Some ([v], rest, next1)
        | None, None => None
        end
    end.
Proof. reflexivity. Qed.

Lemma parse_members_eq (fuel : nat) (s : JsString) (next : ref) :
  parse_members (S fuel) s next
  = match starts_with 34 (skip_ws s) with
    | Some r =>
        match parse_string_units r with
        | None => None
        | Some (key, r1) =>
            match starts_with 58 (skip_ws r1) with
            | Some r2 =>
                match parse_value fuel r2 next with
                | None => None
                | Some (v, r3, next1) =>
                    match starts_with 44 (skip_ws r3),
                          starts_with 125 (skip_ws r3) with
                    | Some r4, _ =>
                        match parse_members fuel r4 next1 with
                        | Some (ms, rest, next2) =>
                            Some ((key, v) :: ms, rest, next2)
                        | None => None
                        end
                    | None, Some rest => Some ([(key, v)], rest, next1)
                    | None, None => None
                    end
                end
            | None => None
            end
        end
    | None => None
    end.
Proof. reflexivity. Qed.

Lemma parse_value_array (fuel : nat) (r : JsString) (next : ref) :
  parse_value (S fuel) (91 :: r) next
  = match starts_with 93 (skip_ws r) with
    | Some rest => Some (JArray next [], rest, S next)
    | None =>
        match parse_elements fuel r (S next) with
        | Some (els, rest, next') => Some (JArray next els, rest, next')
        | None => None
        end
    end.
Proof. reflexivity. Qed.

Lemma parse_value_object (fuel : nat) (r : JsString) (next : ref) :
  parse_value (S fuel) (123 :: r) next
  = match starts_with 125 (skip_ws r) with
    | Some rest => Some (JObject next [], rest, S next)
    | None =>
        match parse_members fuel r (S next) with
        | Some (ms, rest, next') =>
            Some (JObject next (build_object ms), rest, next')
        | None => None
        end
    end.
Proof. reflexivity. Qed.

Lemma parse_value_string (fuel : nat) (r : JsString) (next : ref) :
  parse_value (S fuel) (34 :: r) next
  = match parse_string_units r with
    | Some (str, rest) => Some (JString str, rest, next)
    | None => None
    end.
Proof. reflexivity. Qed.

Lemma join_items_single {A : Type} (item : A -> JsString) (close : code_unit)
  (x : A) (rest : JsString) :
  join_items item close [x] ++ rest = item x ++ close :: rest.
Proof. simpl. now rewrite <- app_assoc. Qed.

Lemma join_items_more {A : Type} (item : A -> JsString) (close : code_unit)
  (x y : A) (more : list A) (rest : JsString) :
  join_items item close (x :: y :: more) ++ rest
  = item x ++ 44 :: join_items item close (y :: more) ++ rest.
Proof.
  change (join_items item close (x :: y :: more))
    with (item x ++ 44 :: join_items item close (y :: more)).
  now rewrite <- app_assoc.
Qed.

(** The elements of a non-empty array. *)
Lemma parse_elements_join (el : JsonValue) (more : list JsonValue) :
  Forall parses_back (el :: more) ->
  forallb representable (el :: more) = true ->
  forall (fuel : nat) (rest : JsString) (next : ref),
    (fold_right (fun el n => S (cost el + n)) O (el :: more) <= fuel)%nat ->
    exists els' next',
      parse_elements fuel
        (join_items SerializeJSONProperty 93 (el :: more) ++ rest) next
      = Some (els', rest, next')
      /\ forallb2 similar els' (el :: more) = true.
Proof.
  revert el. induction more as [|el2 more IH]; intros el HP Hrep fuel rest next Hfuel.
  - inversion HP as [|? ? Hel _]; subst.
    simpl in Hrep. rewrite andb_true_r in Hrep.
    simpl in Hfuel. destruct fuel as [|fuel]; [lia|].
    destruct (Hel Hrep fuel (93 :: rest) next) as (v' & next' & Hparse & Hsim);
      [lia | reflexivity |].
    exists [v'], next'. rewrite parse_elements_eq, join_items_single, Hparse.
    simpl.
    split; [reflexivity | now rewrite Hsim].
  - inversion HP as [|? ? Hel HP']; subst.
    simpl in Hrep. apply andb_prop in Hrep. destruct Hrep as [Hrep Hrep'].
    change (fold_right (fun el n => S (cost el + n)) O (el :: el2 :: more))
      with (S (cost el + fold_right (fun el n => S (cost el + n)) O (el2 :: more)))
      in Hfuel.
    destruct fuel as [|fuel]; [lia|].
    rewrite join_items_more.
    destruct (Hel Hrep fuel
                (44 :: join_items SerializeJSONProperty 93 (el2 :: more) ++ rest)
                next) as (v' & next1 & Hparse & Hsim);
      [lia | reflexivity |].
    destruct (IH el2 HP' Hrep' fuel rest next1) as (vs & next2 & Hrest & Hsims);
      [lia|].
    exists (v' :: vs), next2. rewrite parse_elements_eq, Hparse.
    change (starts_with 44 (skip_ws (44 :: ?x))) with (Some x).
    cbv iota beta. rewrite Hrest.
    split; [reflexivity|]. simpl. now rewrite Hsim, Hsims.
Qed.

(** The text of a member, with the closing quote of the key in front of
    what follows it. *)
Lemma member_text_eq (key : JsString) (val : JsonValue) (tail : JsString) :
  member_text (key, val) ++ tail
  = 34 :: quote_units key ++ 34 :: 58 :: SerializeJSONProperty val ++ tail.
Proof.
  unfold member_text, QuoteJSONString. simpl. rewrite <- !app_assoc.
  reflexivity.
Qed.

(** The members of a non-empty object. *)
Lemma parse_members_join (m : JsString * JsonValue) (more : JsonObject) :
  Forall (fun m => parses_back (snd m)) (m :: more) ->
  forallb (fun m => JsString_valid (fst m) && representable (snd m)) (m :: more)
  = true ->
  forall (fuel : nat) (rest : JsString) (next : ref),
    (fold_right (fun m n => S (cost (snd m) + n)) O (m :: more) <= fuel)%nat ->
    exists ms' next',
      parse_members fuel (join_items member_text 125 (m :: more) ++ rest) next
      = Some (ms', rest, next')
      /\ forallb2 (fun m1 m2 => JsString_eqb (fst m1) (fst m2)
                                && similar (snd m1) (snd m2)) ms' (m :: more)
         = true.
Proof.
  revert m. induction more as [|m2 more IH];
    intros [key val] HP Hrep fuel rest next Hfuel.
  - inversion HP as [|? ? Hel _]; subst. simpl in Hel.
    simpl in Hrep. rewrite andb_true_r in Hrep.
    apply andb_prop in Hrep. destruct Hrep as [Hkey Hrep].
    simpl in Hfuel. destruct fuel as [|fuel]; [lia|].
    destruct (Hel Hrep fuel (125 :: rest) next) as (v' & next' & Hparse & Hsim);
      [lia | reflexivity |].
    exists [(key, v')], next'.
    rewrite parse_members_eq, join_items_single, (member_text_eq key val).
    change (starts_with 34 (skip_ws (34 :: ?x))) with (Some x).
    cbv iota beta.
    rewrite (parse_string_units_quote_units key Hkey).
    change (starts_with 58 (skip_ws (58 :: ?x))) with (Some x).
    cbv iota beta. rewrite Hparse. simpl.
    split; [reflexivity|]. now rewrite JsString_eqb_refl, Hsim.
  - inversion HP as [|? ? Hel HP']; subst. simpl in Hel.
    simpl in Hrep. apply andb_prop in Hrep. destruct Hrep as [Hrep Hrep'].
    apply andb_prop in Hrep. destruct Hrep as [Hkey Hrep].
    change (fold_right (fun m n => S (cost (snd m) + n)) O ((key, val) :: m2 :: more))
      with (S (cost val + fold_right (fun m n => S (cost (snd m) + n)) O (m2 :: more)))
      in Hfuel.
    destruct fuel as [|fuel]; [lia|].
    rewrite join_items_more.
    destruct (Hel Hrep fuel
                (44 :: join_items member_text 125 (m2 :: more) ++ rest)
                next) as (v' & next1 & Hparse & Hsim);
      [lia | reflexivity |].
    destruct (IH m2 HP' Hrep' fuel rest next1) as (vs & next2 & Hrest & Hsims);
      [lia|].
    exists ((key, v') :: vs), next2.
    rewrite parse_members_eq, (member_text_eq key val).
    change (starts_with 34 (skip_ws (34 :: ?x))) with (Some x).
    cbv iota beta.
    rewrite (parse_string_units_quote_units key Hkey).
    change (starts_with 58 (skip_ws (58 :: ?x))) with (Some x).
    cbv iota beta. rewrite Hparse.
    change (starts_with 44 (skip_ws (44 :: ?x))) with (Some x).
    cbv iota beta. rewrite Hrest.
    split; [reflexivity|]. simpl. now rewrite JsString_eqb_refl, Hsim, Hsims.
Qed.

Lemma distinct_app_not_in (l1 l2 : list JsString) (k : JsString) :
  distinct (l1 ++ k :: l2) = true -> ~ In k l1.
Proof.
  induction l1 as [|k1 l1 IH]; simpl app; intros Hd; [tauto|].
  apply distinct_cons in Hd. destruct Hd as [Hnot Hd].
  intros [->|Hin].
  - apply Hnot. apply in_or_app. right. now left.
  - now apply IH.
Qed.

Lemma define_property_fresh (o : JsonObject) (k : JsString) (v : JsonValue) :
  ~ In k (map fst o) -> define_property o k v = o ++ [(k, v)].
Proof.
  induction o as [|[k0 v0] o IH]; simpl; intros Hnot; [reflexivity|].
  destruct (JsString_eqb k0 k) eqn:E.
  - apply JsString_eqb_eq in E. subst. exfalso. apply Hnot. now left.
  - rewrite IH; [reflexivity|]. intros Hin. apply Hnot. now right.
Qed.

Lemma build_object_from (ms acc : JsonObject) :
  distinct (map fst (acc ++ ms)) = true ->
  fold_left (fun o m => define_property o (fst m) (snd m)) ms acc = acc ++ ms.
Proof.
  revert acc. induction ms as [|[k v] ms IH]; intros acc Hd; simpl.
  - now rewrite app_nil_r.
  - rewrite define_property_fresh.
    + rewrite IH; rewrite <- app_assoc; [reflexivity | exact Hd].
    + rewrite map_app in Hd. simpl in Hd. exact (distinct_app_not_in _ _ _ Hd).
Qed.

(** Members with distinct keys make the object that lists them. *)
Lemma build_object_distinct (ms : JsonObject) :
  distinct (map fst ms) = true -> build_object ms = ms.
Proof. intros Hd. exact (build_object_from ms [] Hd). Qed.

Lemma SerializeJSONProperty_object (r : ref) (ms : JsonObject) :
  SerializeJSONProperty (JObject r ms) = 123 :: join_items member_text 125 ms.
Proof. reflexivity. Qed.

Lemma SerializeJSONProperty_array (r : ref) (els : list JsonValue) :
  SerializeJSONProperty (JArray r els)
  = 91 :: join_items SerializeJSONProperty 93 els.
Proof. reflexivity. Qed.

Lemma join_items_head {A : Type} (item : A -> JsString) (close : code_unit)
  (x : A) (more : list A) (rest : JsString) :
  exists tail, join_items item close (x :: more) ++ rest = item x ++ tail.
Proof.
  destruct more as [|y more].
  - eexists. apply join_items_single.
  - eexists. apply join_items_more.
Qed.

(** Every representable value parses back from its text. *)
Lemma parses_back_all (v : JsonValue) : parses_back v.
Proof.
  induction v as [ | b | x | s | r els IH | r ms IH] using JsonValue_induction;
    intros Hrep fuel rest next Hfuel Hdel;
    (destruct fuel as [|fuel]; [simpl in Hfuel; lia|]).
  - exists JNull, next. split; reflexivity.
  - exists (JBoolean b), next. destruct b; split; reflexivity.
  - simpl in Hrep.
    destruct (Number_representable_parses x fuel rest next Hrep Hdel)
      as (y & Hparse & Heq).
    exists (JNumber y), next. split; [|exact Heq].
    simpl SerializeJSONProperty.
    destruct (Number_text_roundtrip x Hrep) as (Hfin & _). now rewrite Hfin.
  - simpl in Hrep. exists (JString s), next.
    split; [|simpl; apply JsString_eqb_refl].
    simpl SerializeJSONProperty. unfold QuoteJSONString. simpl app.
    rewrite parse_value_string, <- app_assoc. simpl app.
    now rewrite (parse_string_units_quote_units s Hrep).
  - rewrite SerializeJSONProperty_array, <- app_comm_cons, parse_value_array.
    destruct els as [|el more].
    + exists (JArray next []), (S next). split; reflexivity.
    + simpl in Hrep.
      assert (Hel : representable el = true)
        by (apply andb_prop in Hrep; tauto).
      destruct (join_items_head SerializeJSONProperty 93 el more rest)
        as (tail & Htail).
      destruct (skip_ws_serialized el tail Hel) as [Hws H93].
      rewrite <- Htail in Hws, H93. rewrite Hws, H93.
      destruct (parse_elements_join el more IH Hrep fuel rest (S next))
        as (els' & next' & Hparse & Hsim).
      { simpl in Hfuel. simpl. lia. }
      rewrite Hparse. exists (JArray next els'), next'.
      split; [reflexivity | exact Hsim].
  - rewrite SerializeJSONProperty_object, <- app_comm_cons, parse_value_object.
    destruct ms as [|[key val] more].
    + exists (JObject next []), (S next). split; reflexivity.
    + simpl in Hrep. apply andb_prop in Hrep. destruct Hrep as [Hd Hrep].
      destruct (join_items_head member_text 125 (key, val) more rest)
        as (tail & Htail).
      assert (H125 : starts_with 125
                       (skip_ws (join_items member_text 125 ((key, val) :: more)
                                 ++ rest)) = None)
        by (rewrite Htail, member_text_eq; reflexivity).
      rewrite H125.
      destruct (parse_members_join (key, val) more IH Hrep fuel rest (S next))
        as (ms' & next' & Hparse & Hsim).
      { simpl in Hfuel. simpl. lia. }
      rewrite Hparse. exists (JObject next (build_object ms')), next'.
      split; [reflexivity|].
      rewrite build_object_distinct; [exact Hsim|].
      now rewrite (same_keys_map_fst _ _ _ Hsim).
Qed.

Lemma join_items_cost {A : Type} (item : A -> JsString) (close : code_unit)
  (c : A -> nat) (l : list A) :
  Forall (fun x => (c x <= length (item x))%nat) l ->
  (fold_right (fun x n => S (c x + n)) O l
   <= length (join_items item close l))%nat.
Proof.
  induction 1 as [|x more Hx _ IH]; simpl; [lia|].
  rewrite length_app. destruct more as [|y more]; simpl in *; lia.
Qed.

Lemma cost_le_length (v : JsonValue) :
  representable v = true ->
  (cost v <= length (SerializeJSONProperty v))%nat.
Proof.
  induction v as [ | b | x | s | r els IH | r ms IH] using JsonValue_induction;
    intros Hrep.
  - simpl. lia.
  - destruct b; simpl; lia.
  - destruct (serialized_head (JNumber x) Hrep) as (c & tail & -> & _).
    simpl. lia.
  - simpl. rewrite length_app. simpl. lia.
  - rewrite SerializeJSONProperty_array.
    change (cost (JArray r els))
      with (S (fold_right (fun el n => S (cost el + n)) O els)).
    simpl length. apply le_n_S. apply join_items_cost.
    simpl in Hrep. rewrite forallb_forall in Hrep.
    rewrite List.Forall_forall in IH. apply List.Forall_forall.
    intros el Hin. apply (IH el Hin). now apply Hrep.
  - rewrite SerializeJSONProperty_object.
    change (cost (JObject r ms))
      with (S (fold_right (fun m n => S (cost (snd m) + n)) O ms)).
    simpl length. apply le_n_S.
    apply (join_items_cost member_text 125 (fun m => cost (snd m))).
    simpl in Hrep. apply andb_prop in Hrep. destruct Hrep as [_ Hrep].
    rewrite forallb_forall in Hrep.
    rewrite List.Forall_forall in IH. apply List.Forall_forall.
    intros [k val] Hin. specialize (IH (k, val) Hin). simpl in IH.
    specialize (Hrep (k, val) Hin). simpl in Hrep.
    apply andb_prop in Hrep. destruct Hrep as [_ Hrep].
    specialize (IH Hrep). unfold member_text. simpl.
    rewrite !length_app. simpl. lia.
Qed.

Lemma representable_well_formed (v : JsonValue) :
  representable v = true -> well_formed v = true.
Proof.
  induction v as [ | b | x | s | r els IH | r ms IH] using JsonValue_induction;
    intros Hrep; try reflexivity.
  - simpl in *. rewrite forallb_forall in Hrep. apply forallb_forall.
    rewrite List.Forall_forall in IH. intros el Hin.
    apply (IH el Hin). now apply Hrep.
  - simpl in *. apply andb_prop in Hrep. destruct Hrep as [Hd Hrep].
    rewrite Hd. simpl. rewrite forallb_forall in Hrep. apply forallb_forall.
    rewrite List.Forall_forall in IH. intros m Hin.
    apply (IH m Hin). specialize (Hrep m Hin).
    apply andb_prop in Hrep. tauto.
Qed.

(** [JSON.parse] of [JSON.stringify] of a representable value. *)
Lemma ECMAScript_parse_stringify (v : JsonValue) (next : ref) :
  representable v = true ->
  exists decoded next',
    ECMAScript_parse (SerializeJSONProperty v) next = Normal (decoded, next')
    /\ similar decoded v = true.
Proof.
  intros Hrep.
  destruct (parses_back_all v Hrep (S (length (SerializeJSONProperty v))) []
              next) as (decoded & next' & Hparse & Hsim).
  - pose proof (cost_le_length v Hrep). lia.
  - exact I.
  - rewrite app_nil_r in Hparse. exists decoded, next'.
    split; [|exact Hsim]. unfold ECMAScript_parse. now rewrite Hparse.
Qed.

(** ** The objects [JSON.parse] creates *)

Lemma define_property_values (P : JsonValue -> bool) (o : JsonObject)
  (k : JsString) (v : JsonValue) :
  forallb (fun m => P (snd m)) o = true -> P v = true ->
  forallb (fun m => P (snd m)) (define_property o k v) = true.
Proof.
  intros Ho Hv. induction o as [|[k0 v0] o IH]; simpl.
  - now rewrite Hv.
  - simpl in Ho. apply andb_prop in Ho. destruct Ho as [H0 Ho].
    destruct (JsString_eqb k0 k); simpl.
    + now rewrite Hv, Ho.
    + now rewrite H0, (IH Ho).
Qed.

Lemma build_object_values (P : JsonValue -> bool) (ms : JsonObject) :
  forallb (fun m => P (snd m)) ms = true ->
  forallb (fun m => P (snd m)) (build_object ms) = true.
Proof.
  unfold build_object.
  assert (H : forall acc,
             forallb (fun m => P (snd m)) acc = true ->
             forallb (fun m => P (snd m)) ms = true ->
             forallb (fun m => P (snd m))
               (fold_left (fun o m => define_property o (fst m) (snd m)) ms acc)
             = true).
  { induction ms as [|[k v] ms IH]; intros acc Hacc Hms; simpl; [exact Hacc|].
    simpl in Hms. apply andb_prop in Hms. destruct Hms as [Hv Hms].
    apply IH; [|exact Hms]. now apply define_property_values. }
  intros Hms. now apply H.
Qed.

Lemma refs_in_leaf (lo hi : nat) (v : JsonValue) :
  match v with JArray _ _ | JObject _ _ => False | _ => True end ->
  refs_in lo hi v = true.
Proof. destruct v; simpl; tauto. Qed.

Lemma parse_value_eq (fuel : nat) (s : JsString) (next : ref) :
  parse_value (S fuel) s next
  = match skip_ws s with
    | [] => None
    | c :: r =>
        if c =? 34 then
          match parse_string_units r with
          | Some (str, rest) => Some (JString str, rest, next)
          | None => None
          end
        else if c =? 91 then
          match starts_with 93 (skip_ws r) with
          | Some rest => Some (JArray next [], rest, S next)
          | None =>
              match parse_elements fuel r (S next) with
              | Some (els, rest, next') => Some (JArray next els, rest, next')
              | None => None
              end
          end
        else if c =? 123 then
          match starts_with 125 (skip_ws r) with
          | Some rest => Some (JObject next [], rest, S next)
          | None =>
              match parse_members fuel r (S next) with
              | Some (ms, rest, next') =>
                  Some (JObject next (build_object ms), rest, next')
              | None => None
              end
          end
        else
          match strip_prefix (js "null") (c :: r) with
          | Some rest => Some (JNull, rest, next)
          | None =>
          match strip_prefix (js "true") (c :: r) with
          | Some rest => Some (JBoolean true, rest, next)
          | None =>
          match strip_prefix (js "false") (c :: r) with
          | Some rest => Some (JBoolean false, rest, next)
          | None =>
              let '(tok, rest) := span is_number_char (c :: r) in
              match parse_number_token tok with
              | Some x => Some (JNumber x, rest, next)
              | None => None
              end
          end end end
    end.
Proof. reflexivity. Qed.

(** The objects of a parsed value are new: their references are taken from
    [next] on, and [next'] is the first one left. *)
Lemma parse_allocates (fuel : nat) :
  (forall s next v rest next',
      parse_value fuel s next = Some (v, rest, next') ->
      (next <= next')%nat /\ refs_in next next' v = true)
  /\ (forall s next els rest next',
        parse_elements fuel s next = Some (els, rest, next') ->
        (next <= next')%nat /\ forallb (refs_in next next') els = true)
  /\ (forall s next ms rest next',
        parse_members fuel s next = Some (ms, rest, next') ->
        (next <= next')%nat
        /\ forallb (fun m => refs_in next next' (snd m)) ms = true).
Proof.
  induction fuel as [|fuel (IHv & IHe & IHm)].
  - repeat split; discriminate.
  - split; [|split].
    + intros s next v rest next' H. rewrite parse_value_eq in H.
      destruct (skip_ws s) as [|c r]; [discriminate|].
      destruct (c =? 34); [|destruct (c =? 91); [|destruct (c =? 123)]];
        repeat case_match; simplify_eq; try (split; [lia | reflexivity]).
      * simpl. split; [lia|]. rewrite andb_true_r.
        apply andb_true_intro.
        split; [apply Nat.leb_le | apply Nat.ltb_lt]; lia.
      * match goal with
        | Hp : parse_elements _ _ _ = Some _ |- _ =>
            destruct (IHe _ _ _ _ _ Hp) as [Hle Hels]
        end.
        split; [lia|]. simpl. apply andb_true_intro. split.
        -- apply andb_true_intro.
           split; [apply Nat.leb_le | apply Nat.ltb_lt]; lia.
        -- rewrite forallb_forall in Hels. apply forallb_forall.
           intros el Hin. apply (refs_in_weaken (S next) next'); try lia.
           now apply Hels.
      * simpl. split; [lia|]. rewrite andb_true_r.
        apply andb_true_intro.
        split; [apply Nat.leb_le | apply Nat.ltb_lt]; lia.
      * match goal with
        | Hp : parse_members _ _ _ = Some _ |- _ =>
            destruct (IHm _ _ _ _ _ Hp) as [Hle Hms]
        end.
        split; [lia|]. simpl. apply andb_true_intro. split.
        -- apply andb_true_intro.
           split; [apply Nat.leb_le | apply Nat.ltb_lt]; lia.
        -- apply build_object_values.
           rewrite forallb_forall in Hms. apply forallb_forall.
           intros m Hin. apply (refs_in_weaken (S next) next'); try lia.
           now apply Hms.
    + intros s next els rest next' H. rewrite parse_elements_eq in H.
      repeat case_match; simplify_eq.
      * match goal with
        | Hp : parse_value _ _ _ = Some _, Hq : parse_elements _ _ _ = Some _ |- _ =>
            destruct (IHv _ _ _ _ _ Hp) as [Hle1 Hv];
            destruct (IHe _ _ _ _ _ Hq) as [Hle2 Hels]
        end.
        split; [lia|]. simpl. apply andb_true_intro. split.
        -- apply (refs_in_weaken next n); try lia. exact Hv.
        -- rewrite forallb_forall in Hels. apply forallb_forall.
           intros el Hin. apply (refs_in_weaken n next'); try lia.
           now apply Hels.
      * match goal with
        | Hp : parse_value _ _ _ = Some _ |- _ =>
            destruct (IHv _ _ _ _ _ Hp) as [Hle1 Hv]
        end.
        split; [lia|]. simpl. now rewrite Hv.
    + intros s next ms rest next' H. rewrite parse_members_eq in H.
      repeat case_match; simplify_eq.
      * match goal with
        | Hp : parse_value _ _ _ = Some _, Hq : parse_members _ _ _ = Some _ |- _ =>
            destruct (IHv _ _ _ _ _ Hp) as [Hle1 Hv];
            destruct (IHm _ _ _ _ _ Hq) as [Hle2 Hms]
        end.
        split; [lia|]. simpl. apply andb_true_intro. split.
        -- apply (refs_in_weaken next n); try lia. exact Hv.
        -- rewrite forallb_forall in Hms. apply forallb_forall.
           intros m Hin. apply (refs_in_weaken n next'); try lia.
           now apply Hms.
      * match goal with
        | Hp : parse_value _ _ _ = Some _ |- _ =>
            destruct (IHv _ _ _ _ _ Hp) as [Hle1 Hv]
        end.
        split; [lia|]. simpl. now rewrite Hv.
Qed.

Lemma ECMAScript_parse_allocates (text : JsString) (next next' : ref)
  (v : JsonValue) :
  ECMAScript_parse text next = Normal (v, next') ->
  (next <= next')%nat /\ refs_in next next' v = true.
Proof.
  unfold ECMAScript_parse. intros H.
  destruct (parse_value (S (length text)) text next) as [[[v0 rest] n0]|] eqn:Hp;
    [|discriminate].
  destruct (skip_ws rest); [|discriminate]. injection H as <- <-.
  exact (proj1 (parse_allocates _) _ _ _ _ _ Hp).
Qed.

(** ** The fuel of the parser

    More fuel never changes what the parser finds, and the length of the
    text is always enough: a text that [ECMAScript_parse] rejects is
    rejected whatever the fuel. *)

Lemma parse_more_fuel (fuel : nat) :
  (forall fuel' s next r, (fuel <= fuel')%nat ->
      parse_value fuel s next = Some r -> parse_value fuel' s next = Some r)
  /\ (forall fuel' s next r, (fuel <= fuel')%nat ->
        parse_elements fuel s next = Some r ->
        parse_elements fuel' s next = Some r)
  /\ (forall fuel' s next r, (fuel <= fuel')%nat ->
        parse_members fuel s next = Some r ->
        parse_members fuel' s next = Some r).
Proof.
  induction fuel as [|fuel (IHv & IHe & IHm)].
  - repeat split; discriminate.
  - split; [|split]; intros [|fuel'] s next r Hle H; try lia;
      assert (Hle' : (fuel <= fuel')%nat) by lia.
    + rewrite parse_value_eq in *.
      destruct (skip_ws s) as [|c rest]; [discriminate|].
      destruct (c =? 34); [exact H|].
      destruct (c =? 91).
      { destruct (starts_with 93 (skip_ws rest)); [exact H|].
        destruct (parse_elements fuel rest (S next)) as [[[els r1] n1]|] eqn:E;
          [|discriminate].
        now rewrite (IHe fuel' _ _ _ Hle' E). }
      destruct (c =? 123); [|exact H].
      destruct (starts_with 125 (skip_ws rest)); [exact H|].
      destruct (parse_members fuel rest (S next)) as [[[ms r1] n1]|] eqn:E;
        [|discriminate].
      now rewrite (IHm fuel' _ _ _ Hle' E).
    + rewrite parse_elements_eq in *.
      destruct (parse_value fuel s next) as [[[v r1] n1]|] eqn:E;
        [|discriminate].
      rewrite (IHv fuel' _ _ _ Hle' E).
      destruct (starts_with 44 (skip_ws r1)) as [r2|]; [|exact H].
      destruct (parse_elements fuel r2 n1) as [[[vs r3] n3]|] eqn:E2;
        [|discriminate].
      now rewrite (IHe fuel' _ _ _ Hle' E2).
    + rewrite parse_members_eq in *.
      destruct (starts_with 34 (skip_ws s)) as [r0|]; [|discriminate].
      destruct (parse_string_units r0) as [[k r1]|]; [|discriminate].
      destruct (starts_with 58 (skip_ws r1)) as [r2|]; [|discriminate].
      destruct (parse_value fuel r2 next) as [[[v r3] n1]|] eqn:E;
        [|discriminate].
      rewrite (IHv fuel' _ _ _ Hle' E).
      destruct (starts_with 44 (skip_ws r3)) as [r4|]; [|exact H].
      destruct (parse_members fuel r4 n1) as [[[ms r5] n5]|] eqn:E2;
        [|discriminate].
      now rewrite (IHm fuel' _ _ _ Hle' E2).
Qed.

Lemma parse_value_more_fuel (fuel fuel' : nat) (s : JsString) (next : ref)
  (r : JsonValue * JsString * ref) :
  parse_value fuel s next = Some r -> (fuel <= fuel')%nat ->
  parse_value fuel' s next = Some r.
Proof. intros H Hle. exact (proj1 (parse_more_fuel fuel) _ _ _ _ Hle H). Qed.

Lemma parse_elements_more_fuel (fuel fuel' : nat) (s : JsString) (next : ref)
  (r : list JsonValue * JsString * ref) :
  parse_elements fuel s next = Some r -> (fuel <= fuel')%nat ->
  parse_elements fuel' s next = Some r.
Proof.
  intros H Hle. exact (proj1 (proj2 (parse_more_fuel fuel)) _ _ _ _ Hle H).
Qed.

Lemma parse_members_more_fuel (fuel fuel' : nat) (s : JsString) (next : ref)
  (r : list (JsString * JsonValue) * JsString * ref) :
  parse_members fuel s next = Some r -> (fuel <= fuel')%nat ->
  parse_members fuel' s next = Some r.
Proof.
  intros H Hle. exact (proj2 (proj2 (parse_more_fuel fuel)) _ _ _ _ Hle H).
Qed.

Lemma length_skip_ws (s : JsString) : (length (skip_ws s) <= length s)%nat.
Proof.
  induction s as [|c s IH]; simpl; [lia|].
  destruct (is_ws c); simpl; lia.
Qed.

Lemma length_starts_with (c : code_unit) (s r : JsString) :
  starts_with c s = Some r -> length s = S (length r).
Proof.
  destruct s as [|x s]; simpl; [discriminate|].
  destruct (x =? c); [|discriminate]. now intros [= ->].
Qed.

Lemma length_strip_prefix (p s r : JsString) :
  strip_prefix p s = Some r -> length s = (length p + length r)%nat.
Proof.
  revert s. induction p as [|a p IH]; intros s.
  - simpl. now intros [= ->].
  - destruct s as [|b s]; simpl; [discriminate|].
    destruct (a =? b); [|discriminate]. intros H. now rewrite (IH _ H).
Qed.

Lemma length_span (p : code_unit -> bool) (s tok rest : JsString) :
  span p s = (tok, rest) -> length s = (length tok + length rest)%nat.
Proof.
  revert tok rest. induction s as [|c s IH]; intros tok rest; simpl.
  - now intros [= <- <-].
  - destruct (p c).
    + destruct (span p s) as [a b]. intros [= <- <-]. simpl.
      now rewrite (IH a b eq_refl).
    + now intros [= <- <-].
Qed.

Lemma length_parse_string_units (s str rest : JsString) :
  parse_string_units s = Some (str, rest) -> (length rest < length s)%nat.
Proof.
  remember (length s) as n eqn:Hn. revert s str rest Hn.
  induction n as [n IH] using lt_wf_ind. intros s str rest Hn H.
  destruct s as [|c s]; [discriminate|]. simpl in H, Hn.
  destruct (c =? 34); [injection H as <- <-; lia|].
  destruct (c =? 92).
  - destruct s as [|e s]; [discriminate|].
    destruct (e =? 117).
    + destruct s as [|h1 [|h2 [|h3 [|h4 s]]]]; try discriminate.
      destruct (hex4_value h1 h2 h3 h4); [|discriminate].
      destruct (parse_string_units s) as [[str' rest']|] eqn:E; [|discriminate].
      injection H as <- <-.
      pose proof (IH (length s) ltac:(simpl in Hn; lia) s _ _ eq_refl E).
      simpl in *. lia.
    + destruct (simple_escape e); [|discriminate].
      destruct (parse_string_units s) as [[str' rest']|] eqn:E; [|discriminate].
      injection H as <- <-.
      pose proof (IH (length s) ltac:(simpl in Hn; lia) s _ _ eq_refl E).
      simpl in *. lia.
  - destruct (c <? 32); [discriminate|].
    destruct (parse_string_units s) as [[str' rest']|] eqn:E; [|discriminate].
    injection H as <- <-.
    pose proof (IH (length s) ltac:(lia) s _ _ eq_refl E). lia.
Qed.

Lemma parse_unsigned_nonempty (r : JsString) (x : Number) :
  parse_unsigned r = Some x -> r <> [].
Proof. intros H ->. discriminate H. Qed.

Lemma parse_number_token_nonempty (tok : JsString) (x : Number) :
  parse_number_token tok = Some x -> tok <> [].
Proof. intros H ->. discriminate H. Qed.

(** What the parser reads, it reads with as much fuel as it consumes
    text. *)
Lemma parse_fuel_consumed (fuel : nat) :
  (forall s next v rest next',
      parse_value fuel s next = Some (v, rest, next') ->
      (length rest < length s)%nat
      /\ parse_value (length s - length rest) s next = Some (v, rest, next'))
  /\ (forall s next els rest next',
        parse_elements fuel s next = Some (els, rest, next') ->
        (length rest < length s)%nat
        /\ parse_elements (length s - length rest) s next
           = Some (els, rest, next'))
  /\ (forall s next ms rest next',
        parse_members fuel s next = Some (ms, rest, next') ->
        (length rest < length s)%nat
        /\ parse_members (length s - length rest) s next
           = Some (ms, rest, next')).
Proof.
  induction fuel as [|fuel (IHv & IHe & IHm)].
  - repeat split; discriminate.
  - split; [|split].
    + intros s next v rest next' H.
      pose proof (length_skip_ws s) as Hws.
      assert (Hlt : (length rest < length s)%nat).
      { rewrite parse_value_eq in H.
        destruct (skip_ws s) as [|c r]; [discriminate|]. simpl in Hws.
        destruct (c =? 34).
        { destruct (parse_string_units r) as [[str r1]|] eqn:E; [|discriminate].
          injection H as <- <- <-.
          pose proof (length_parse_string_units _ _ _ E). lia. }
        destruct (c =? 91).
        { pose proof (length_skip_ws r).
          destruct (starts_with 93 (skip_ws r)) as [r1|] eqn:E93.
          - injection H as <- <- <-.
            pose proof (length_starts_with _ _ _ E93). lia.
          - destruct (parse_elements fuel r (S next)) as [[[els r1] n1]|] eqn:E;
              [|discriminate].
            injection H as <- <- <-. destruct (IHe _ _ _ _ _ E). lia. }
        destruct (c =? 123).
        { pose proof (length_skip_ws r).
          destruct (starts_with 125 (skip_ws r)) as [r1|] eqn:E125.
          - injection H as <- <- <-.
            pose proof (length_starts_with _ _ _ E125). lia.
          - destruct (parse_members fuel r (S next)) as [[[ms r1] n1]|] eqn:E;
              [|discriminate].
            injection H as <- <- <-. destruct (IHm _ _ _ _ _ E). lia. }
        destruct (strip_prefix (js "null") (c :: r)) as [r1|] eqn:E1.
        { injection H as <- <- <-.
          pose proof (length_strip_prefix _ _ _ E1). simpl in *. lia. }
        destruct (strip_prefix (js "true") (c :: r)) as [r1|] eqn:E2.
        { injection H as <- <- <-.
          pose proof (length_strip_prefix _ _ _ E2). simpl in *. lia. }
        destruct (strip_prefix (js "false") (c :: r)) as [r1|] eqn:E3.
        { injection H as <- <- <-.
          pose proof (length_strip_prefix _ _ _ E3). simpl in *. lia. }
        destruct (span is_number_char (c :: r)) as [tok r1] eqn:Es.
        destruct (parse_number_token tok) as [x|] eqn:Et; [|discriminate].
        injection H as <- <- <-.
        pose proof (length_span _ _ _ _ Es) as Hl.
        pose proof (parse_number_token_nonempty _ _ Et).
        destruct tok; [contradiction|]. simpl in *. lia. }
      split; [exact Hlt|].
      destruct (length s - length rest)%nat as [|k] eqn:Hk; [lia|].
      rewrite parse_value_eq in H. rewrite parse_value_eq.
      destruct (skip_ws s) as [|c r]; [discriminate|]. simpl in Hws.
      destruct (c =? 34); [exact H|].
      destruct (c =? 91).
      { destruct (starts_with 93 (skip_ws r)); [exact H|].
        destruct (parse_elements fuel r (S next)) as [[[els r1] n1]|] eqn:E;
          [|discriminate].
        injection H as <- <- <-. destruct (IHe _ _ _ _ _ E) as [Hl He].
        now rewrite (parse_elements_more_fuel _ k _ _ _ He) by lia. }
      destruct (c =? 123); [|exact H].
      destruct (starts_with 125 (skip_ws r)); [exact H|].
      destruct (parse_members fuel r (S next)) as [[[ms r1] n1]|] eqn:E;
        [|discriminate].
      injection H as <- <- <-. destruct (IHm _ _ _ _ _ E) as [Hl Hm].
      now rewrite (parse_members_more_fuel _ k _ _ _ Hm) by lia.
    + intros s next els rest next' H. rewrite parse_elements_eq in H.
      destruct (parse_value fuel s next) as [[[v r1] n1]|] eqn:E;
        [|discriminate].
      destruct (IHv _ _ _ _ _ E) as [Hl1 Hv].
      pose proof (length_skip_ws r1) as Hws.
      destruct (starts_with 44 (skip_ws r1)) as [r2|] eqn:E44.
      * destruct (parse_elements fuel r2 n1) as [[[vs r3] n3]|] eqn:E2;
          [|discriminate].
        injection H as <- <- <-. destruct (IHe _ _ _ _ _ E2) as [Hl2 He].
        pose proof (length_starts_with _ _ _ E44) as Hl44.
        split; [lia|].
        destruct (length s - length r3)%nat as [|k] eqn:Hk; [lia|].
        rewrite parse_elements_eq.
        rewrite (parse_value_more_fuel _ k _ _ _ Hv) by lia. rewrite E44.
        now rewrite (parse_elements_more_fuel _ k _ _ _ He) by lia.
      * destruct (starts_with 93 (skip_ws r1)) as [r2|] eqn:E93;
          [|discriminate].
        injection H as <- <- <-.
        pose proof (length_starts_with _ _ _ E93) as Hl93.
        split; [lia|].
        destruct (length s - length r2)%nat as [|k] eqn:Hk; [lia|].
        rewrite parse_elements_eq.
        rewrite (parse_value_more_fuel _ k _ _ _ Hv) by lia. rewrite E44, E93.
        reflexivity.
    + intros s next ms rest next' H. rewrite parse_members_eq in H.
      pose proof (length_skip_ws s) as Hws0.
      destruct (starts_with 34 (skip_ws s)) as [r0|] eqn:E34; [|discriminate].
      pose proof (length_starts_with _ _ _ E34) as Hl34.
      destruct (parse_string_units r0) as [[k0 r1]|] eqn:Ek; [|discriminate].
      pose proof (length_parse_string_units _ _ _ Ek) as Hlk.
      pose proof (length_skip_ws r1) as Hws1.
      destruct (starts_with 58 (skip_ws r1)) as [r2|] eqn:E58; [|discriminate].
      pose proof (length_starts_with _ _ _ E58) as Hl58.
      destruct (parse_value fuel r2 next) as [[[v r3] n1]|] eqn:E;
        [|discriminate].
      destruct (IHv _ _ _ _ _ E) as [Hl1 Hv].
      pose proof (length_skip_ws r3) as Hws3.
      destruct (starts_with 44 (skip_ws r3)) as [r4|] eqn:E44.
      * destruct (parse_members fuel r4 n1) as [[[ms' r5] n5]|] eqn:E2;
          [|discriminate].
        injection H as <- <- <-. destruct (IHm _ _ _ _ _ E2) as [Hl2 Hm].
        pose proof (length_starts_with _ _ _ E44) as Hl44.
        split; [lia|].
        destruct (length s - length r5)%nat as [|k] eqn:Hk; [lia|].
        rewrite parse_members_eq, E34, Ek, E58.
        rewrite (parse_value_more_fuel _ k _ _ _ Hv) by lia. rewrite E44.
        now rewrite (parse_members_more_fuel _ k _ _ _ Hm) by lia.
      * destruct (starts_with 125 (skip_ws r3)) as [r4|] eqn:E125;
          [|discriminate].
        injection H as <- <- <-.
        pose proof (length_starts_with _ _ _ E125) as Hl125.
        split; [lia|].
        destruct (length s - length r4)%nat as [|k] eqn:Hk; [lia|].
        rewrite parse_members_eq, E34, Ek, E58.
        rewrite (parse_value_more_fuel _ k _ _ _ Hv) by lia. rewrite E44, E125.
        reflexivity.
Qed.

(** Whatever some fuel reads, the fuel of [ECMAScript_parse] reads. *)
Lemma parse_value_fuel_enough (fuel : nat) (s : JsString) (next next' : ref)
  (v : JsonValue) (rest : JsString) :
  parse_value fuel s next = Some (v, rest, next') ->
  parse_value (S (length s)) s next = Some (v, rest, next').
Proof.
  intros H. destruct (proj1 (parse_fuel_consumed fuel) _ _ _ _ _ H) as [_ H'].
  apply (parse_value_more_fuel _ _ _ _ _ H'). lia.
Qed.

(** A text is rejected only if no fuel decodes it. *)
Lemma ECMAScript_parse_rejects (text : JsString) (next : ref) (e : Error) :
  ECMAScript_parse text next = Throw e ->
  e = SyntaxError
  /\ forall fuel v rest next',
       parse_value fuel text next = Some (v, rest, next') -> skip_ws rest <> [].
Proof.
  unfold ECMAScript_parse. intros H. split.
  - destruct (parse_value (S (length text)) text next) as [[[v r] n]|];
      [destruct (skip_ws r)|]; congruence.
  - intros fuel v rest next' Hp Hrest.
    rewrite (parse_value_fuel_enough _ _ _ _ _ _ Hp), Hrest in H.
    discriminate H.
Qed.

(** ** Running scripts *)

Ltac script_unfold :=
  unfold mbind, Script_bind, mret, Script_ret, try_catch, stableOnError,
    notifyReact, parse, stringify, localStorage_getItem, localStorage_setItem,
    localStorage_removeItem in *.

Section HookFacts.
Context {St : Type}.
Variable JSON : JSONObject.
Variable localStorage : Storage St.
Variable options : UseLocalStorageOptions.

Lemma read_absent (w : World St) :
  getItem localStorage (store w) (key options) = Normal None ->
  readFromLocalStorage JSON localStorage options w = (Normal JNull, w).
Proof using Type.
  intros H. unfold readFromLocalStorage. script_unfold. now rewrite H.
Qed.

Lemma read_decoded (w : World St) text v next' :
  getItem localStorage (store w) (key options) = Normal (Some text) ->
  JSON_parse JSON text (next_ref w) = Normal (v, next') ->
  readFromLocalStorage JSON localStorage options w
  = (Normal v, with_next_ref next' w).
Proof using Type.
  intros H1 H2. unfold readFromLocalStorage. script_unfold.
  now rewrite H1, H2.
Qed.

Lemma read_undecodable (w : World St) text e :
  getItem localStorage (store w) (key options) = Normal (Some text) ->
  JSON_parse JSON text (next_ref w) = Throw e ->
  readFromLocalStorage JSON localStorage options w
  = (Normal JNull, report e w).
Proof using Type.
  intros H1 H2. unfold readFromLocalStorage. script_unfold.
  now rewrite H1, H2.
Qed.

(** Evaluating the hook's body changes the store in no case. *)
Lemma read_keeps_store (w : World St) :
  store (snd (readFromLocalStorage JSON localStorage options w)) = store w.
Proof using Type.
  unfold readFromLocalStorage. script_unfold.
  destruct (getItem localStorage (store w) (key options)) as [[text|]|e];
    simpl; try reflexivity.
  destruct (JSON_parse JSON text (next_ref w)) as [[v n]|e]; reflexivity.
Qed.

Lemma useLocalStorage_keeps_store (w : World St) :
  store (snd (useLocalStorage JSON localStorage options w)) = store w.
Proof using Type.
  unfold useLocalStorage. unfold mbind at 1, Script_bind.
  pose proof (read_keeps_store w) as H.
  destruct (readFromLocalStorage JSON localStorage options w) as [[v|e] w'];
    simpl in *; exact H.
Qed.

Lemma useLocalStorage_value (w w' : World St) storageValue :
  readFromLocalStorage JSON localStorage options w = (Normal storageValue, w') ->
  useLocalStorage JSON localStorage options w
  = (Normal (hookValue options storageValue,
             setLocalStorageValue JSON localStorage options
               (hookValue options storageValue)), w').
Proof using Type.
  intros H. unfold useLocalStorage. unfold mbind at 1, Script_bind.
  now rewrite H.
Qed.
End HookFacts.

(** ** The change filter *)

(** C3: an event for the watched key of the bound store in which exactly one
    of the old and the new text is absent always notifies React, whatever
    the text that is present. *)
Theorem creation_and_deletion_always_signal
  {St : Type} (JSON : JSONObject) (localStorage : Storage St)
  (options : UseLocalStorageOptions) (event : StorageEvent) (w : World St) :
  storageArea event = Some (storage_id localStorage) ->
  event_key event = Some (key options) ->
  (oldValue event = None /\ newValue event <> None)
  \/ (oldValue event <> None /\ newValue event = None) ->
  onStorageUpdate JSON localStorage options event w = (Normal tt, notify w).
Proof.
  intros Harea Hkey Hone. unfold onStorageUpdate.
  rewrite Harea, Hkey, Nat.eqb_refl. simpl. rewrite JsString_eqb_refl. simpl.
  destruct Hone as [[Ho Hn]|[Ho Hn]].
  - rewrite Ho. destruct (newValue event); [reflexivity | contradiction].
  - rewrite Hn. destruct (oldValue event); [reflexivity | contradiction].
Qed.

Lemma creation_and_deletion_always_signal_witness :
  let event := {| storageArea := Some 7%nat; event_key := Some (js "target");
                  oldValue := None; newValue := Some (js "{bad json") |} in
  let options := {| key := js "target"; fallbackValue := None;
                    removeNullValues := true; syncFallbackOnMount := false |} in
  let w := mkWorld (∅ : gmap JsString JsString) [] 0 0 in
  onStorageUpdate ECMAScript_JSON (memoryStorage 7) options event w
  = (Normal tt, notify w).
Proof.
  intros event options w.
  apply (creation_and_deletion_always_signal ECMAScript_JSON (memoryStorage 7)
           options event w).
  - reflexivity.
  - reflexivity.
  - left. split; [reflexivity | discriminate].
Defined.

(** The filter on an event whose texts are both present and both decode. *)
Lemma onStorageUpdate_decoded
  {St : Type} (JSON : JSONObject) (localStorage : Storage St)
  (options : UseLocalStorageOptions) (event : StorageEvent) (w : World St)
  (old new : JsString) (oldParsed newParsed : JsonValue) (n1 n2 : ref) :
  storageArea event = Some (storage_id localStorage) ->
  event_key event = Some (key options) ->
  oldValue event = Some old ->
  newValue event = Some new ->
  JSON_parse JSON old (next_ref w) = Normal (oldParsed, n1) ->
  JSON_parse JSON new n1 = Normal (newParsed, n2) ->
  onStorageUpdate JSON localStorage options event w
  = (Normal tt,
     if deepEqual oldParsed newParsed then with_next_ref n2 w
     else notify (with_next_ref n2 w)).
Proof.
  intros Harea Hkey Ho Hn Hp1 Hp2. unfold onStorageUpdate.
  rewrite Harea, Hkey, Nat.eqb_refl. simpl. rewrite JsString_eqb_refl. simpl.
  rewrite Ho, Hn. script_unfold. rewrite Hp1. simpl. rewrite Hp2.
  destruct (deepEqual oldParsed newParsed); reflexivity.
Qed.

(** For an event of the watched key and bound store whose old and new text
    both decode, React is notified exactly when [deepEqual] finds the two
    decoded values unequal; so of two consecutive writes the second, whose
    text differs but decodes to a deep-equal value, is suppressed. *)
Lemma filter_forwards_iff_not_deepEqual
  {St : Type} (JSON : JSONObject) (localStorage : Storage St)
  (options : UseLocalStorageOptions) (event : StorageEvent) (w : World St)
  (old new : JsString) (oldParsed newParsed : JsonValue) (n1 n2 : ref) :
  storageArea event = Some (storage_id localStorage) ->
  event_key event = Some (key options) ->
  oldValue event = Some old ->
  newValue event = Some new ->
  JSON_parse JSON old (next_ref w) = Normal (oldParsed, n1) ->
  JSON_parse JSON new n1 = Normal (newParsed, n2) ->
  let after := snd (onStorageUpdate JSON localStorage options event w) in
  fst (onStorageUpdate JSON localStorage options event w) = Normal tt
  /\ reported after = reported w
  /\ (notified after = S (notified w) <-> deepEqual oldParsed newParsed = false)
  /\ (notified after = notified w <-> deepEqual oldParsed newParsed = true)
  /\ (old <> new -> deepEqual oldParsed newParsed = true ->
      notified after = notified w).
Proof.
  intros Harea Hkey Ho Hn Hp1 Hp2 after. subst after.
  rewrite (onStorageUpdate_decoded JSON localStorage options event w
             old new oldParsed newParsed n1 n2) by assumption.
  destruct (deepEqual oldParsed newParsed); simpl;
    repeat split; intros; try congruence; try lia.
Qed.

(** The specification's example: the same object with its keys in another
    order. *)
Example filter_suppresses_reordered_keys :
  let first := json "{'a':1,'b':2}" in
  let second := json "{'b':2,'a':1}" in
  let event := {| storageArea := Some 7%nat; event_key := Some (js "target");
                  oldValue := Some first; newValue := Some second |} in
  let options := {| key := js "target"; fallbackValue := None;
                    removeNullValues := true; syncFallbackOnMount := false |} in
  let w := mkWorld (∅ : gmap JsString JsString) [] 0 0 in
  first <> second
  /\ notified (snd (onStorageUpdate ECMAScript_JSON (memoryStorage 7)
                      options event w)) = 0%nat.
Proof.
  intros first second event options w.
  split; [discriminate|].
  eapply (filter_forwards_iff_not_deepEqual ECMAScript_JSON (memoryStorage 7)
            options event w first second).
  - reflexivity.
  - reflexivity.
  - reflexivity.
  - reflexivity.
  - vm_compute. reflexivity.
  - vm_compute. reflexivity.
  - discriminate.
  - vm_compute. reflexivity.
Defined.

(** With the language's [JSON], and an old value without an empty
    [__proto__] member, the filter notifies exactly when the two decoded
    values are unequal in the specification's sense. *)
Lemma filter_forwards_iff_structurally_unequal
  {St : Type} (localStorage : Storage St)
  (options : UseLocalStorageOptions) (event : StorageEvent) (w : World St)
  (old new : JsString) (oldParsed newParsed : JsonValue) (n1 n2 : ref) :
  storageArea event = Some (storage_id localStorage) ->
  event_key event = Some (key options) ->
  oldValue event = Some old ->
  newValue event = Some new ->
  ECMAScript_parse old (next_ref w) = Normal (oldParsed, n1) ->
  ECMAScript_parse new n1 = Normal (newParsed, n2) ->
  proto_free oldParsed = true ->
  onStorageUpdate ECMAScript_JSON localStorage options event w
  = (Normal tt,
     if structurally_equal oldParsed newParsed then with_next_ref n2 w
     else notify (with_next_ref n2 w)).
Proof.
  intros Harea Hkey Ho Hn Hp1 Hp2 Hfree.
  rewrite (onStorageUpdate_decoded ECMAScript_JSON localStorage options event w
             old new oldParsed newParsed n1 n2) by assumption.
  destruct (ECMAScript_parse_allocates _ _ _ _ Hp1) as [_ Hr1].
  destruct (ECMAScript_parse_allocates _ _ _ _ Hp2) as [_ Hr2].
  now rewrite (deepEqual_structurally_equal (next_ref w) n1 n2 oldParsed
                 newParsed Hr1 Hr2 Hfree).
Qed.

(** Two texts that decode to values equal in the specification's sense
    never notify. *)
Lemma filter_suppresses_structurally_equal
  {St : Type} (JSON : JSONObject) (localStorage : Storage St)
  (options : UseLocalStorageOptions) (event : StorageEvent) (w : World St)
  (old new : JsString) (oldParsed newParsed : JsonValue) (n1 n2 : ref) :
  storageArea event = Some (storage_id localStorage) ->
  event_key event = Some (key options) ->
  oldValue event = Some old ->
  newValue event = Some new ->
  JSON_parse JSON old (next_ref w) = Normal (oldParsed, n1) ->
  JSON_parse JSON new n1 = Normal (newParsed, n2) ->
  structurally_equal oldParsed newParsed = true ->
  onStorageUpdate JSON localStorage options event w
  = (Normal tt, with_next_ref n2 w).
Proof.
  intros Harea Hkey Ho Hn Hp1 Hp2 Heq.
  rewrite (onStorageUpdate_decoded JSON localStorage options event w
             old new oldParsed newParsed n1 n2) by assumption.
  now rewrite (structurally_equal_deepEqual _ _ Heq).
Qed.

(** C2: an event of the watched key and bound store that replaces the text
    of an object whose only member is an empty [__proto__] by the text of an
    object with the one member [a].  Both texts decode, the decoded values
    are structurally unequal, and yet [deepEqual] answers [true] and React is
    not notified: on the new value [o2["__proto__"]] is not [undefined] but
    [Object.prototype], which [deepEqual] finds equal to the empty object. *)
Theorem filter_drops_change_of_proto_member :
  let old := json "{'__proto__':{}}" in
  let new := json "{'a':1}" in
  let event := {| storageArea := Some 7%nat; event_key := Some (js "target");
                  oldValue := Some old; newValue := Some new |} in
  let options := {| key := js "target"; fallbackValue := None;
                    removeNullValues := true; syncFallbackOnMount := false |} in
  let w := mkWorld (∅ : gmap JsString JsString) [] 0 0 in
  exists oldParsed newParsed n1 n2,
    ECMAScript_parse old 0 = Normal (oldParsed, n1)
    /\ ECMAScript_parse new n1 = Normal (newParsed, n2)
    /\ structurally_equal oldParsed newParsed = false
    /\ deepEqual oldParsed newParsed = true
    /\ onStorageUpdate ECMAScript_JSON (memoryStorage 7) options event w
       = (Normal tt, with_next_ref n2 w).
Proof.
  intros old new event options w.
  exists (JObject 0 [(js "__proto__", JObject 1 [])]),
         (JObject 2 [(js "a", JNumber (Number_of_Z 1))]), 2%nat, 3%nat.
  repeat split; vm_compute; reflexivity.
Qed.

(** ** Reading *)

(** C4: when the text stored under the watched key does not decode, one call
    of the read function returns null, hands exactly one error, the decoding
    error, to [onError], and does not throw; when the key is absent it
    returns null and reports nothing. *)
Theorem read_reports_undecodable_text_once
  {St : Type} (JSON : JSONObject) (localStorage : Storage St)
  (options : UseLocalStorageOptions) (w : World St) :
  (getItem localStorage (store w) (key options) = Normal None ->
   readFromLocalStorage JSON localStorage options w = (Normal JNull, w))
  /\ (forall text e,
        getItem localStorage (store w) (key options) = Normal (Some text) ->
        JSON_parse JSON text (next_ref w) = Throw e ->
        let result := readFromLocalStorage JSON localStorage options w in
        fst result = Normal JNull
        /\ reported (snd result) = reported w ++ [e]
        /\ store (snd result) = store w
        /\ notified (snd result) = notified w).
Proof.
  split.
  - apply read_absent.
  - intros text e Hget Hparse result. subst result.
    rewrite (read_undecodable JSON localStorage options w text e Hget Hparse).
    repeat split.
Qed.

Lemma read_reports_undecodable_text_once_witness :
  let options := {| key := js "target"; fallbackValue := None;
                    removeNullValues := true; syncFallbackOnMount := false |} in
  let bad := mkWorld ({[ js "target" := js "{bad json" ]} : gmap JsString JsString)
               [] 0 0 in
  let empty := mkWorld (∅ : gmap JsString JsString) [] 0 0 in
  readFromLocalStorage ECMAScript_JSON (memoryStorage 7) options empty
  = (Normal JNull, empty)
  /\ fst (readFromLocalStorage ECMAScript_JSON (memoryStorage 7) options bad)
     = Normal JNull
  /\ reported (snd (readFromLocalStorage ECMAScript_JSON (memoryStorage 7)
                      options bad)) = [SyntaxError].
Proof.
  intros options bad empty. split.
  - apply (proj1 (read_reports_undecodable_text_once ECMAScript_JSON
                    (memoryStorage 7) options empty)).
    reflexivity.
  - pose proof (proj2 (read_reports_undecodable_text_once ECMAScript_JSON
                         (memoryStorage 7) options bad)
                  (js "{bad json") SyntaxError eq_refl eq_refl) as H.
    simpl in H. destruct H as (H1 & H2 & _). split; assumption.
Defined.

(** ** The setter *)

Lemma setValue_remove_failure_propagates :
  let options := {| key := js "target"; fallbackValue := None;
                    removeNullValues := true; syncFallbackOnMount := false |} in
  let w := mkWorld (∅ : gmap JsString JsString) [] 0 0 in
  setLocalStorageValue ECMAScript_JSON (readOnlyStorage 7) options JNull
    (Value JNull) w
  = (Throw (CustomError 2), w).
Proof. reflexivity. Qed.

(** Whatever [removeItem] throws leaves the setter as it is. *)
Lemma setValue_rethrows_removal_failure
  {St : Type} (JSON : JSONObject) (localStorage : Storage St)
  (options : UseLocalStorageOptions) (current : JsonValue) (payload : Payload)
  (w : World St) (e : Error) :
  newValue_of current payload = Normal JNull ->
  removeNullValues options = true ->
  removeItem localStorage (store w) (key options) = Throw e ->
  setLocalStorageValue JSON localStorage options current payload w
  = (Throw e, w).
Proof.
  intros Hv Hr He. unfold setLocalStorageValue. rewrite Hv, Hr. simpl.
  script_unfold. now rewrite He.
Qed.

(** C1, amended: the setter returns normally for every payload as long as
    [removeItem] does not throw; an exception of the updater, an encoding
    failure and a failure of [setItem] are caught and handed to [onError].
    ([removeItem] is called outside every [try].) *)
Theorem setValue_catches_all_but_removal
  {St : Type} (JSON : JSONObject) (localStorage : Storage St)
  (options : UseLocalStorageOptions) (current : JsonValue) (payload : Payload)
  (w : World St) :
  (forall e, removeItem localStorage (store w) (key options) <> Throw e) ->
  let result := setLocalStorageValue JSON localStorage options current payload w in
  fst result = Normal tt
  /\ (forall e, newValue_of current payload = Throw e ->
        snd result = report e w)
  /\ (forall newValue e,
        newValue_of current payload = Normal newValue ->
        is_null newValue && removeNullValues options = false ->
        JSON_stringify JSON newValue = Throw e ->
        snd result = report e w)
  /\ (forall newValue text e,
        newValue_of current payload = Normal newValue ->
        is_null newValue && removeNullValues options = false ->
        JSON_stringify JSON newValue = Normal text ->
        setItem localStorage (store w) (key options) text = Throw e ->
        snd result = report e w).
Proof.
  intros Hremove result. subst result. unfold setLocalStorageValue.
  destruct (newValue_of current payload) as [newValue|e0] eqn:Hv.
  - destruct (is_null newValue && removeNullValues options) eqn:Hnull.
    + script_unfold.
      destruct (removeItem localStorage (store w) (key options)) as [s'|e1] eqn:Hr.
      * simpl. repeat split; intros; congruence.
      * exfalso. exact (Hremove e1 eq_refl).
    + script_unfold.
      destruct (JSON_stringify JSON newValue) as [text|e1] eqn:Hs.
      * destruct (setItem localStorage (store w) (key options) text)
          as [s'|e2] eqn:Hset; simpl;
          repeat split; intros; congruence.
      * simpl. repeat split; intros; try congruence.
  - simpl. repeat split; intros; try congruence.
Qed.

Lemma setValue_catches_all_but_removal_witness :
  let options := {| key := js "target"; fallbackValue := None;
                    removeNullValues := true; syncFallbackOnMount := false |} in
  let w := mkWorld (∅ : gmap JsString JsString) [] 0 0 in
  let failing := Updater (fun _ => Throw (CustomError 9)) in
  let nested := Value (JArray 1 [JArray 2 []]) in
  let long := Value (JString (js "0123456789")) in
  setLocalStorageValue ECMAScript_JSON (quotaStorage 7 8) options JNull failing w
  = (Normal tt, report (CustomError 9) w)
  /\ setLocalStorageValue (bounded_stack_JSON 1) (quotaStorage 7 8) options JNull
       nested w
     = (Normal tt, report RangeError w)
  /\ setLocalStorageValue ECMAScript_JSON (quotaStorage 7 8) options JNull long w
     = (Normal tt, report QuotaExceededError w).
Proof.
  intros options w failing nested long.
  assert (Hremove : forall e,
             removeItem (quotaStorage 7 8) (store w) (key options) <> Throw e)
    by (intros e; discriminate).
  split; [|split].
  - destruct (setValue_catches_all_but_removal ECMAScript_JSON (quotaStorage 7 8)
                options JNull failing w Hremove) as (H1 & H2 & _).
    specialize (H2 (CustomError 9) eq_refl).
    rewrite surjective_pairing at 1. now rewrite H1, H2.
  - destruct (setValue_catches_all_but_removal (bounded_stack_JSON 1)
                (quotaStorage 7 8) options JNull nested w Hremove)
      as (H1 & _ & H3 & _).
    specialize (H3 _ RangeError eq_refl eq_refl eq_refl).
    rewrite surjective_pairing at 1. now rewrite H1, H3.
  - destruct (setValue_catches_all_but_removal ECMAScript_JSON (quotaStorage 7 8)
                options JNull long w Hremove) as (H1 & _ & _ & H4).
    specialize (H4 _ _ QuotaExceededError eq_refl eq_refl eq_refl eq_refl).
    rewrite surjective_pairing at 1. now rewrite H1, H4.
Defined.

(** ** The value the hook returns *)

Lemma read_from_memoryStorage (JSON : JSONObject) (id : nat)
  (options : UseLocalStorageOptions) (w : World (gmap JsString JsString)) :
  exists storageValue w1,
    readFromLocalStorage JSON (memoryStorage id) options w
    = (Normal storageValue, w1)
    /\ store w1 = store w
    /\ (store w !! key options = None -> storageValue = JNull).
Proof.
  unfold readFromLocalStorage. script_unfold. simpl.
  destruct (store w !! key options) as [text|] eqn:Hget.
  - destruct (JSON_parse JSON text (next_ref w)) as [[v n]|e];
      eexists _, _; (split; [reflexivity|]); split; try reflexivity; discriminate.
  - eexists _, _. split; [reflexivity|]. split; reflexivity.
Qed.

(** C7: when the read yields null and a fallback is configured, the value the
    hook returns is the fallback; after [setValue(null)] with
    [removeNullValues] the key is gone from the store and the next
    evaluation returns the fallback again. *)
Theorem fallback_applies_when_read_yields_null
  (JSON : JSONObject) (options : UseLocalStorageOptions) (fallback : JsonValue) :
  fallbackValue options = Some fallback ->
  (forall (St : Type) (localStorage : Storage St) (w w' : World St),
      readFromLocalStorage JSON localStorage options w = (Normal JNull, w') ->
      returned_value (useLocalStorage JSON localStorage options w) = Some fallback)
  /\ (forall (id : nat) (current : JsonValue) (w : World (gmap JsString JsString)),
        removeNullValues options = true ->
        let after := setLocalStorageValue JSON (memoryStorage id) options current
                       (Value JNull) w in
        fst after = Normal tt
        /\ store (snd after) !! key options = None
        /\ returned_value (useLocalStorage JSON (memoryStorage id) options
                             (snd after)) = Some fallback).
Proof.
  intros Hfb. split.
  - intros St localStorage w w' Hread.
    rewrite (useLocalStorage_value JSON localStorage options w w' JNull Hread).
    unfold returned_value, hookValue. simpl. now rewrite Hfb.
  - intros id current w Hremove after. subst after.
    unfold setLocalStorageValue. simpl. rewrite Hremove. simpl.
    split; [reflexivity|]. split; [apply lookup_delete_eq|].
    set (w1 := with_store (delete (key options) (store w)) w).
    rewrite (useLocalStorage_value JSON (memoryStorage id) options w1 w1 JNull).
    + unfold returned_value, hookValue. simpl. now rewrite Hfb.
    + apply read_absent. simpl. now rewrite lookup_delete_eq.
Qed.

Lemma fallback_applies_when_read_yields_null_witness :
  let forty_two := JNumber (Number_of_Z 42) in
  let options := {| key := js "target"; fallbackValue := Some forty_two;
                    removeNullValues := true; syncFallbackOnMount := false |} in
  let empty := mkWorld (∅ : gmap JsString JsString) [] 0 0 in
  let held := mkWorld ({[ js "target" := js "7" ]} : gmap JsString JsString)
                [] 0 0 in
  let after := setLocalStorageValue ECMAScript_JSON (memoryStorage 7) options
                 (JNumber (Number_of_Z 7)) (Value JNull) held in
  returned_value (useLocalStorage ECMAScript_JSON (memoryStorage 7) options empty)
  = Some forty_two
  /\ store (snd after) !! js "target" = None
  /\ returned_value (useLocalStorage ECMAScript_JSON (memoryStorage 7) options
                       (snd after)) = Some forty_two.
Proof.
  intros forty_two options empty held after.
  destruct (fallback_applies_when_read_yields_null ECMAScript_JSON options
              forty_two eq_refl) as [Hread Hset].
  split.
  - apply (Hread _ (memoryStorage 7) empty empty). reflexivity.
  - destruct (Hset 7%nat (JNumber (Number_of_Z 7)) held eq_refl) as (_ & H2 & H3).
    split; assumption.
Defined.



(** C9: with [removeNullValues] off, [setValue(null)] stores the text null
    under the key; the next read decodes it to null, and the hook returns
    what it returns when the key is absent: the fallback, if there is
    one. *)
Theorem stored_null_reads_as_absent
  (id : nat) (options : UseLocalStorageOptions) (current : JsonValue)
  (w : World (gmap JsString JsString)) :
  removeNullValues options = false ->
  let localStorage := memoryStorage id in
  let after := setLocalStorageValue ECMAScript_JSON localStorage options current
                 (Value JNull) w in
  let absent := with_store (delete (key options) (store (snd after))) (snd after) in
  fst after = Normal tt
  /\ store (snd after) = <[key options := js "null"]> (store w)
  /\ readFromLocalStorage ECMAScript_JSON localStorage options (snd after)
     = (Normal JNull, snd after)
  /\ returned_value (useLocalStorage ECMAScript_JSON localStorage options
                       (snd after)) = Some (hookValue options JNull)
  /\ returned_value (useLocalStorage ECMAScript_JSON localStorage options
                       absent) = Some (hookValue options JNull)
  /\ (forall fallback,
        fallbackValue options = Some fallback ->
        hookValue options JNull = fallback).
Proof.
  intros Hremove localStorage after absent. subst after absent localStorage.
  unfold setLocalStorageValue. simpl. rewrite Hremove. simpl.
  set (w1 := with_store (<[key options := js "null"]> (store w)) w).
  assert (Hread : readFromLocalStorage ECMAScript_JSON (memoryStorage id)
                    options w1 = (Normal JNull, w1)).
  { rewrite (read_decoded ECMAScript_JSON (memoryStorage id) options w1
               (js "null") JNull (next_ref w1)).
    - destruct w; reflexivity.
    - simpl. now rewrite lookup_insert_eq.
    - reflexivity. }
  split; [reflexivity|]. split; [reflexivity|]. split; [exact Hread|].
  split; [|split].
  - now rewrite (useLocalStorage_value _ _ _ _ _ _ Hread).
  - set (w2 := with_store _ w1).
    rewrite (useLocalStorage_value ECMAScript_JSON (memoryStorage id) options
               w2 w2 JNull); [reflexivity|].
    apply read_absent. simpl. now rewrite lookup_delete_eq.
  - intros fallback Hfb. unfold hookValue. simpl. now rewrite Hfb.
Qed.

Lemma stored_null_reads_as_absent_witness :
  let forty_two := JNumber (Number_of_Z 42) in
  let options := {| key := js "target"; fallbackValue := Some forty_two;
                    removeNullValues := false; syncFallbackOnMount := false |} in
  let w := mkWorld ({[ js "target" := js "7" ]} : gmap JsString JsString)
             [] 0 0 in
  let after := setLocalStorageValue ECMAScript_JSON (memoryStorage 7) options
                 (JNumber (Number_of_Z 7)) (Value JNull) w in
  store (snd after) !! js "target" = Some (js "null")
  /\ returned_value (useLocalStorage ECMAScript_JSON (memoryStorage 7) options
                       (snd after)) = Some forty_two.
Proof.
  intros forty_two options w after.
  destruct (stored_null_reads_as_absent 7 options (JNumber (Number_of_Z 7)) w
              eq_refl) as (_ & H2 & _ & H4 & _ & H6).
  split.
  - subst after. rewrite H2. apply lookup_insert_eq.
  - subst after. rewrite H4. now rewrite (H6 forty_two eq_refl).
Defined.

(** ** The mount effect *)

Lemma mount_sync_overwrites_stored_null :
  let fallback := JObject 1 [(js "n", JNumber (Number_of_Z 0))] in
  let options := {| key := js "target"; fallbackValue := Some fallback;
                    removeNullValues := false; syncFallbackOnMount := true |} in
  let w := mkWorld ({[ js "target" := js "null" ]} : gmap JsString JsString)
             [] 0 0 in
  store w !! js "target" = Some (js "null")
  /\ store (snd (mount ECMAScript_JSON (memoryStorage 7) options w))
       !! js "target" = Some (json "{'n':0}").
Proof. split; vm_compute; reflexivity. Qed.

(** C6, amended: with [syncFallbackOnMount] and a fallback, the encoded
    fallback is written at the first evaluation exactly when the first read
    yields null: the key is absent, or its text does not decode, or decodes
    to null.  It is not written when the key holds a text that decodes to
    another value, later evaluations never write, whatever their options,
    and so a changed fallback rewrites nothing. *)
Theorem mount_sync_writes_when_first_read_is_null
  (id : nat) (options : UseLocalStorageOptions)
  (w : World (gmap JsString JsString)) :
  let localStorage := memoryStorage id in
  exists storageValue w1,
    readFromLocalStorage ECMAScript_JSON localStorage options w
    = (Normal storageValue, w1)
    /\ (store w !! key options = None -> storageValue = JNull)
    /\ store (snd (mount ECMAScript_JSON localStorage options w))
       = match fallbackValue options with
         | Some fallback =>
             if syncFallbackOnMount options && is_null storageValue
             then <[key options := SerializeJSONProperty fallback]> (store w)
             else store w
         | None => store w
         end
    /\ (forall (options' : UseLocalStorageOptions)
               (w' : World (gmap JsString JsString)),
          store (snd (useLocalStorage ECMAScript_JSON localStorage options' w'))
          = store w').
Proof.
  intros localStorage. subst localStorage.
  destruct (read_from_memoryStorage ECMAScript_JSON id options w)
    as (storageValue & w1 & Hread & Hstore & Habsent).
  exists storageValue, w1. split; [exact Hread|]. split; [exact Habsent|].
  split; [|intros; apply useLocalStorage_keeps_store].
  unfold mount. unfold mbind at 1, Script_bind. rewrite Hread.
  unfold mountEffect.
  destruct (fallbackValue options) as [fallback|].
  - destruct (syncFallbackOnMount options), (is_null storageValue); simpl;
      try exact Hstore.
    script_unfold. simpl. now rewrite Hstore.
  - rewrite andb_false_r. simpl. exact Hstore.
Qed.

(** The first evaluation with fallback [{"n":0}] on an empty store leaves
    the encoded fallback under the key; an evaluation after it with
    another fallback leaves that text in place. *)
Example mount_sync_on_empty_store :
  let options n := {| key := js "target";
                      fallbackValue :=
                        Some (JObject 1 [(js "n", JNumber (Number_of_Z n))]);
                      removeNullValues := true;
                      syncFallbackOnMount := true |} in
  let w := mkWorld (∅ : gmap JsString JsString) [] 0 0 in
  let mounted := snd (mount ECMAScript_JSON (memoryStorage 7) (options 0) w) in
  store mounted !! js "target" = Some (json "{'n':0}")
  /\ store (snd (useLocalStorage ECMAScript_JSON (memoryStorage 7) (options 1)
                   mounted)) !! js "target" = Some (json "{'n':0}").
Proof. split; vm_compute; reflexivity. Qed.

(** ** Encoding and decoding *)

(** C5: for every representable value [v], decoding the text that encoding
    [v] gives returns a value that [deepEqual] finds equal to [v]; so what
    the setter stores of [v] is read back by the hook as a value deep-equal
    to [v]. *)
Theorem decode_encode_deepEqual (v : JsonValue) :
  representable v = true ->
  (forall next : ref,
      exists text decoded next',
        JSON_stringify ECMAScript_JSON v = Normal text
        /\ JSON_parse ECMAScript_JSON text next = Normal (decoded, next')
        /\ deepEqual decoded v = true)
  /\ (forall (id : nat) (options : UseLocalStorageOptions) (current : JsonValue)
             (w : World (gmap JsString JsString)),
        let localStorage := memoryStorage id in
        let after := setLocalStorageValue ECMAScript_JSON localStorage options
                       current (Value v) w in
        exists decoded w',
          fst after = Normal tt
          /\ readFromLocalStorage ECMAScript_JSON localStorage options
               (snd after) = (Normal decoded, w')
          /\ reported w' = reported w
          /\ deepEqual decoded v = true).
Proof.
  intros Hrep.
  pose proof (representable_well_formed v Hrep) as Hwf.
  split.
  - intros next.
    destruct (ECMAScript_parse_stringify v next Hrep)
      as (decoded & next' & Hparse & Hsim).
    exists (SerializeJSONProperty v), decoded, next'.
    split; [reflexivity|]. split; [exact Hparse|].
    now apply deepEqual_similar.
  - intros id options current w localStorage after.
    subst after localStorage. unfold setLocalStorageValue, newValue_of.
    destruct (is_null v && removeNullValues options) eqn:Hnull.
    + apply andb_prop in Hnull. destruct Hnull as [Hnull _].
      destruct v; try discriminate Hnull. script_unfold. simpl.
      exists JNull, (with_store (delete (key options) (store w)) w).
      split; [reflexivity|]. split; [|split; reflexivity].
      apply read_absent. simpl. now rewrite lookup_delete_eq.
    + script_unfold. simpl.
      set (w1 := with_store (<[key options := SerializeJSONProperty v]> (store w)) w).
      destruct (ECMAScript_parse_stringify v (next_ref w1) Hrep)
        as (decoded & next' & Hparse & Hsim).
      exists decoded, (with_next_ref next' w1).
      split; [reflexivity|]. split; [|split].
      * apply (read_decoded ECMAScript_JSON (memoryStorage id) options w1
                 (SerializeJSONProperty v)); [|exact Hparse].
        simpl. now rewrite lookup_insert_eq.
      * reflexivity.
      * now apply deepEqual_similar.
Qed.

Lemma decode_encode_deepEqual_witness :
  let v := JObject 1
             [(js "name", JString (js "a\b"));
              (js "n", JNumber (S754_zero true));
              (js "xs", JArray 2 [JNumber (Number_of_Z 42); JBoolean true; JNull;
                                  JObject 3 []])] in
  representable v = true
  /\ exists text decoded next',
       JSON_stringify ECMAScript_JSON v = Normal text
       /\ JSON_parse ECMAScript_JSON text 10 = Normal (decoded, next')
       /\ deepEqual decoded v = true.
Proof.
  intros v.
  assert (Hrep : representable v = true) by (vm_compute; reflexivity).
  split; [exact Hrep|].
  exact (proj1 (decode_encode_deepEqual v Hrep) 10%nat).
Defined.
